(** * Verification of the task execution orchestrator of AA-coding-agent

    Shallow embedding of
    - [src/app/api/tasks/[taskId]/execute/route.ts]
      ([POST], [processTaskWithTimeout], [isTaskStopped],
       [waitForBranchName], [processTask]);
    - the stop request of the task resource ([PATCH] / [stopTaskExecution]);
    - [src/lib/crypto.ts] ([encrypt], [decrypt]).

    JavaScript strings are modelled as lists of UTF-16 code units ([list Z]),
    byte buffers as lists of bytes ([list Z] with values in 0..255). *)

From Stdlib Require Import ZArith List String Bool Lia.
Import ListNotations.
Open Scope Z_scope.

(** JavaScript truthiness of a string: the empty string is falsy. *)
Definition truthy (s : string) : bool := negb (String.eqb s "").

(** Truthiness of an optional string ([undefined] / [null] are falsy). *)
Definition truthy_opt (o : option string) : bool :=
  match o with Some s => truthy s | None => false end.

(** [a || d] for an optional string [a] and a string default [d]. *)
Definition or_default (o : option string) (d : string) : string :=
  match o with Some s => if truthy s then s else d | None => d end.

(** ** Prompt sanitisation (route.ts, line 483)

    [prompt.replace(/`/g, "'").replace(/\$/g, '').replace(/\\/g, '').replace(/^-/gm, ' -')] *)
Module Sanitize.

Definition backtick : Z := 96.
Definition quote : Z := 39.
Definition dollar : Z := 36.
Definition backslash : Z := 92.
Definition dash : Z := 45.
Definition space : Z := 32.

(** The line terminators after which [^] matches under the [m] flag:
    LF, CR, LINE SEPARATOR, PARAGRAPH SEPARATOR. *)
Definition is_line_terminator (c : Z) : bool :=
  (c =? 10) || (c =? 13) || (c =? 8232) || (c =? 8233).

(** [.replace(/`/g, "'")] *)
Definition replace_backticks (s : list Z) : list Z :=
  map (fun c => if c =? backtick then quote else c) s.

(** [.replace(/\$/g, '')] *)
Definition remove_dollars (s : list Z) : list Z :=
  filter (fun c => negb (c =? dollar)) s.

(** [.replace(/\\/g, '')] *)
Definition remove_backslashes (s : list Z) : list Z :=
  filter (fun c => negb (c =? backslash)) s.

(** [.replace(/^-/gm, ' -')]; [bol] is true when the scan is at the start
    of the input or right after a line terminator. *)
Fixpoint replace_leading_dashes (bol : bool) (s : list Z) : list Z :=
  match s with
  | [] => []
  | c :: r =>
      (if bol && (c =? dash) then [space; dash] else [c])
        ++ replace_leading_dashes (is_line_terminator c) r
  end.

Definition sanitizePrompt (prompt : list Z) : list Z :=
  replace_leading_dashes true
    (remove_backslashes (remove_dollars (replace_backticks prompt))).

(** Some line of [s] begins with [-] (lines as delimited by [^] in
    multiline mode). *)
Fixpoint some_line_begins_with_dash (bol : bool) (s : list Z) : bool :=
  match s with
  | [] => false
  | c :: r => (bol && (c =? dash)) || some_line_begins_with_dash (is_line_terminator c) r
  end.

End Sanitize.

(** ** Trigger endpoint ([POST], route.ts lines 38-204) *)
Module Trigger.

Inductive task_status := Pending | Processing | Completed | Error | Stopped.

Definition task_status_eqb (a b : task_status) : bool :=
  match a, b with
  | Pending, Pending | Processing, Processing | Completed, Completed
  | Error, Error | Stopped, Stopped => true
  | _, _ => false
  end.


(** A store call or an awaited helper either returns or throws. *)
Inductive outcome (A : Type) := Returns (a : A) | Throws.
Arguments Returns {A}. Arguments Throws {A}.



End Trigger.

(** ** Orchestrator ([processTask], [processTaskWithTimeout], route.ts)

    The pipeline runs against the task store while other writers act on the
    same row concurrently: the stop request, the deadline handler of
    [processTaskWithTimeout] and any writer of [branchName]. Every awaited
    call takes time; a write lands when its call completes. The concurrent
    writes wait in a time-stamped queue and are applied when the pipeline's
    clock passes them. External collaborators (sandbox creation, the agent,
    the push, the store's failures) are an oracle: every theorem holds for
    all of their behaviours unless it says otherwise. *)
Module Orchestrator.

Import Trigger.

(** The columns of a [tasks] row the orchestrator reads or writes. *)
Record row := mkRow {
  status : task_status;
  error : string;
  progress : Z;
  branchName : option string;
  sandboxId : option string;
  sandboxUrl : option string }.

Definition set_status (s : task_status) (msg : string) (r : row) : row :=
  mkRow s msg (progress r) (branchName r) (sandboxId r) (sandboxUrl r).
Definition set_progress (p : Z) (r : row) : row :=
  mkRow (status r) (error r) p (branchName r) (sandboxId r) (sandboxUrl r).
Definition set_branchName (b : option string) (r : row) : row :=
  mkRow (status r) (error r) (progress r) b (sandboxId r) (sandboxUrl r).

(** Who wrote a status value. *)
Inductive writer := Pipeline | StopRequest | DeadlineHandler.

Definition writer_eqb (a b : writer) : bool :=
  match a, b with
  | Pipeline, Pipeline | StopRequest, StopRequest
  | DeadlineHandler, DeadlineHandler => true
  | _, _ => false
  end.

(** Writes made concurrently with the pipeline. *)
Inductive async_event :=
  (** [PATCH { action: "stop" }] ([stopTaskExecution]). *)
  | StopTaskExecution
  (** Another writer persists [branchName] (the AI branch name). *)
  | BranchNameWrite (b : string)
  (** The deadline handler's [updateStatus('error', ...)]. *)
  | TimeoutStatusWrite.

(** The external capabilities the pipeline invokes. *)
Inductive call :=
  | CallDetectPort
  | CallCreateSandbox (preDeterminedBranchName : option string)
  | CallExecuteAgent (sanitizedPrompt : list Z)
  | CallGenerateCommitMessage
  | CallPushChanges (branch : string)
  | CallShutdownSandbox.

Definition is_publication (c : call) : bool :=
  match c with
  | CallGenerateCommitMessage | CallPushChanges _ => true
  | _ => false
  end.

Record world := mkWorld {
  now : Z;
  store : row;
  queue : list (Z * async_event);
  status_log : list (writer * task_status * string);
  calls : list call;
  (** the local [let sandbox] of [processTask], read by its [catch] *)
  sandbox_var : option string }.

Definition stop_message : string := "Task was stopped by user".
Definition timeout_message : string :=
  "Task execution timed out. The operation took too long to complete.".
Definition unexpected_error_message : string := "An unexpected error occurred".

(** One concurrent write applied to the world. The stop request only writes
    when it reads [processing] ([PATCH] answers 400 otherwise). *)
Definition apply_event (w : world) (ev : async_event) : world :=
  match ev with
  | StopTaskExecution =>
      if task_status_eqb (status (store w)) Processing then
        mkWorld (now w) (set_status Stopped stop_message (store w)) (queue w)
          (status_log w ++ [(StopRequest, Stopped, stop_message)]) (calls w) (sandbox_var w)
      else w
  | BranchNameWrite b =>
      mkWorld (now w) (set_branchName (Some b) (store w)) (queue w)
        (status_log w) (calls w) (sandbox_var w)
  | TimeoutStatusWrite =>
      mkWorld (now w) (set_status Error timeout_message (store w)) (queue w)
        (status_log w ++ [(DeadlineHandler, Error, timeout_message)]) (calls w) (sandbox_var w)
  end.

(** Insert a time-stamped write after every write that is not later. *)
Fixpoint enqueue (e : Z * async_event) (q : list (Z * async_event)) : list (Z * async_event) :=
  match q with
  | [] => [e]
  | e' :: q' => if fst e <? fst e' then e :: q else e' :: enqueue e q'
  end.

(** ** A state and exception monad *)
Inductive result (A : Type) := Ok (a : A) | Exn (e : option string).
Arguments Ok {A}. Arguments Exn {A}.

Definition M (A : Type) : Type := world -> result A * world.

Definition ret {A} (a : A) : M A := fun w => (Ok a, w).
Definition bind {A B} (m : M A) (k : A -> M B) : M B :=
  fun w => match m w with
           | (Ok a, w') => k a w'
           | (Exn e, w') => (Exn e, w')
           end.
(** [throw]: [Some msg] for an [Error] with [message], [None] otherwise. *)
Definition throw {A} (e : option string) : M A := fun w => (Exn e, w).
Definition try_catch {A} (m : M A) (h : option string -> M A) : M A :=
  fun w => match m w with
           | (Exn e, w') => h e w'
           | r => r
           end.

Notation "x <- m ;; k" := (bind m (fun x => k))
  (at level 61, m at next level, right associativity).
Notation "m ;; k" := (bind m (fun _ => k)) (at level 61, right associativity).

Definition get_world : M world := fun w => (Ok w, w).
Definition modify (f : world -> world) : M unit := fun w => (Ok tt, f w).

(** Time passes by [d]; the concurrent writes due by then are applied. *)
Definition apply_events (es : list (Z * async_event)) (w : world) : world :=
  fold_left (fun w e => apply_event w (snd e)) es w.

Definition advance_world (d : Z) (w : world) : world :=
  let t := now w + d in
  let due := filter (fun e => fst e <=? t) (queue w) in
  let later := filter (fun e => negb (fst e <=? t)) (queue w) in
  apply_events due (mkWorld t (store w) later (status_log w) (calls w) (sandbox_var w)).

Definition advance (d : Z) : M unit := fun w => (Ok tt, advance_world d w).

Definition update_store (f : row -> row) (w : world) : world :=
  mkWorld (now w) (f (store w)) (queue w) (status_log w) (calls w) (sandbox_var w).
Definition log_status (s : task_status) (msg : string) (w : world) : world :=
  mkWorld (now w) (store w) (queue w) (status_log w ++ [(Pipeline, s, msg)])
    (calls w) (sandbox_var w).
Definition record_call (c : call) (w : world) : world :=
  mkWorld (now w) (store w) (queue w) (status_log w) (calls w ++ [c]) (sandbox_var w).
Definition set_sandbox_var (s : option string) (w : world) : world :=
  mkWorld (now w) (store w) (queue w) (status_log w) (calls w) s.

(** The results of the external collaborators. *)
Record sandbox_result := mkSandboxResult {
  sb_success : bool;
  sb_cancelled : bool;
  sb_error : option string;
  sb_sandbox : option string;   (* the sandbox, by its id *)
  sb_domain : option string;
  sb_branchName : option string }.

Record agent_result := mkAgentResult {
  ag_success : bool;
  ag_error : option string }.

Record push_result := mkPushResult { push_success : bool; pushFailed : bool }.

Inductive ext (A : Type) := Done (a : A) | Raises (e : option string).
Arguments Done {A}. Arguments Raises {A}.

Record oracle := mkOracle {
  dt : Z;                        (* one store or log round trip *)
  db_fails : Z -> bool;          (* a store call completing at that time throws *)
  port_ms : Z;
  sandbox_ms : Z; sandbox_out : ext sandbox_result;
  agent_ms : Z; agent_out : ext agent_result;
  commit_ms : Z; commit_ok : bool;
  push_ms : Z; push_out : ext push_result;
  connectors_count : nat }.

Definition from_ext {A} (x : ext A) : M A :=
  match x with Done a => ret a | Raises e => throw e end.

Section Pipeline.

Variable o : oracle.

(** [logger.info] / [logger.success] / [logger.error]. *)
Definition log_line (msg : string) : M unit := advance (dt o).

(** Modelled from the spec: [logger.updateStatus] of the task logger
    ([@/lib/utils/task-logger], not in the sources) writes the status and
    its message to the row unconditionally (no compare-and-swap, spec §9),
    and, as every logging call, never fails the pipeline (spec §7). *)
Definition updateStatus (s : task_status) (msg : string) : M unit :=
  advance (dt o) ;; modify (fun w => log_status s msg (update_store (set_status s msg) w)).

(** Modelled from the spec: [logger.updateProgress] writes the progress
    percentage and never fails the pipeline. *)
Definition updateProgress (p : Z) (msg : string) : M unit :=
  advance (dt o) ;; modify (update_store (set_progress p)).

(** [isTaskStopped] (lines 275-282). *)
Definition isTaskStopped : M bool :=
  advance (dt o) ;;
  w <- get_world ;;
  if db_fails o (now w) then ret false
  else ret (task_status_eqb (status (store w)) Stopped).

(** [db.update(tasks).set(...)]: throws when the store fails. *)
Definition db_update (f : row -> row) : M unit :=
  advance (dt o) ;;
  w <- get_world ;;
  if db_fails o (now w) then throw (Some "database error"%string)
  else modify (update_store f).

(** [db.select().from(tasks)...]: throws when the store fails. *)
Definition db_select : M row :=
  advance (dt o) ;;
  w <- get_world ;;
  if db_fails o (now w) then throw (Some "database error"%string) else ret (store w).

(** [db.insert(taskMessages)] inside [try { } catch { }]. *)
Definition insert_user_message : M unit := advance (dt o).

(** [await new Promise((resolve) => setTimeout(resolve, ms))]. *)
Definition sleep (ms : Z) : M unit := advance ms.

Definition external (c : call) (ms : Z) : M unit :=
  modify (record_call c) ;; advance ms.

(** [shutdownSandbox] inside [try { } catch { }]. *)
Definition shutdownSandbox : M unit := external CallShutdownSandbox (dt o).

(** The body of the polling loop of [waitForBranchName]: one read of
    [task?.branchName], read errors ignored. *)
Definition poll_branchName : M (option string) :=
  advance (dt o) ;;
  w <- get_world ;;
  if db_fails o (now w) then ret None
  else if truthy_opt (branchName (store w)) then ret (branchName (store w))
  else ret None.

(** [while (Date.now() - startTime < maxWaitMs) { ... }]; the fuel bounds
    the number of iterations, each of which takes at least 500 ms. *)
Fixpoint wait_loop (fuel : nat) (maxWaitMs startTime : Z) : M (option string) :=
  match fuel with
  | O => ret None
  | S f =>
      w <- get_world ;;
      if now w - startTime <? maxWaitMs then
        r <- poll_branchName ;;
        match r with
        | Some b => ret (Some b)
        | None => sleep 500 ;; wait_loop f maxWaitMs startTime
        end
      else ret None
  end.

(** [waitForBranchName] (lines 285-302). *)
Definition waitForBranchName (maxWaitMs : Z) : M (option string) :=
  w <- get_world ;;
  wait_loop (S (Z.to_nat maxWaitMs)) maxWaitMs (now w).

(** [if (await isTaskStopped(taskId)) { logger.info(msg); cleanup; return }]. *)
Definition stop_checkpoint (msg : string) (cleanup : M unit) (k : M unit) : M unit :=
  stopped <- isTaskStopped ;;
  if stopped then (log_line msg ;; cleanup) else k.

(** [updateData] of lines 426-434 ([undefined] fields are not written). *)
Definition sandbox_update_data (aiBranchName : option string) (r : sandbox_result)
    (t : row) : row :=
  mkRow (status t) (error t) (progress t)
    (if truthy_opt aiBranchName then branchName t
     else match sb_branchName r with Some b => Some b | None => branchName t end)
    (match sb_sandbox r with Some s => if truthy s then Some s else sandboxId t
                            | None => sandboxId t end)
    (match sb_domain r with Some d => if truthy d then Some d else sandboxUrl t
                           | None => sandboxUrl t end).

(** The MCP connector lookup (lines 452-481), all inside [try { } catch { }]. *)
Definition fetch_connectors : M unit :=
  advance (dt o) ;;
  w <- get_world ;;
  if db_fails o (now w) then log_line "Warning: Could not fetch MCP servers, continuing without them"
  else if (0 <? connectors_count o)%nat then
    log_line "Found connected MCP servers" ;;
    advance (dt o) ;;
    w' <- get_world ;;
    if db_fails o (now w') then log_line "Warning: Could not fetch MCP servers, continuing without them"
    else ret tt
  else ret tt.

(** Commit-message derivation and push (lines 518-538). *)
Definition publish (finalBranchName : string) : M unit :=
  try_catch (external CallGenerateCommitMessage (commit_ms o) ;;
             if commit_ok o then ret tt else throw None)
            (fun _ => ret tt) ;;
  external (CallPushChanges finalBranchName) (push_ms o) ;;
  pushResult <- from_ext (push_out o) ;;
  if push_success pushResult && negb (pushFailed pushResult) then
    log_line "Changes pushed to branch"
  else if pushFailed pushResult then
    log_line "Changes committed locally but could not be pushed to remote"
  else ret tt.

Variables (taskId : string) (prompt : list Z) (repoUrl : string)
  (keepAlive : bool) (githubToken userId : option string).

(** The [try] block of [processTask] (lines 327-551). *)
Definition processTask_body : M unit :=
  updateStatus Processing "Task created, preparing to start..." ;;
  updateProgress 10 "Initializing task execution..." ;;
  insert_user_message ;;
  log_line (if truthy_opt githubToken then "Using authenticated GitHub access"
            else if truthy repoUrl then "No GitHub token available, attempting unauthenticated access"
            else "Running in standalone mode (no repository)") ;;
  log_line "API keys configured for selected agent" ;;
  stop_checkpoint "Task was stopped before execution began" (ret tt) (
  aiBranchName <- waitForBranchName 10000 ;;
  stop_checkpoint "Task was stopped during branch name generation" (ret tt) (
  log_line (if truthy_opt aiBranchName then "Using AI-generated branch name"
            else "AI branch name not ready, will use fallback during sandbox creation") ;;
  updateProgress 15 "Creating sandbox environment" ;;
  (if truthy repoUrl then external CallDetectPort (port_ms o) else ret tt) ;;
  external (CallCreateSandbox (if truthy_opt aiBranchName then aiBranchName else None))
    (sandbox_ms o) ;;
  sandboxResult <- from_ext (sandbox_out o) ;;
  if negb (sb_success sandboxResult) then
    (if sb_cancelled sandboxResult then
       log_line "Task was cancelled during sandbox creation"
     else throw (Some (or_default (sb_error sandboxResult) "Failed to create sandbox")))
  else
  stop_checkpoint "Task was stopped during sandbox creation"
    (match sb_sandbox sandboxResult with Some _ => shutdownSandbox | None => ret tt end) (
  modify (set_sandbox_var (sb_sandbox sandboxResult)) ;;
  db_update (sandbox_update_data aiBranchName sandboxResult) ;;
  stop_checkpoint "Task was stopped before agent execution" (ret tt) (
  updateProgress 50 "Installing and executing agent" ;;
  match sb_sandbox sandboxResult with
  | None => throw (Some "Sandbox is not available for agent execution"%string)
  | Some _ =>
    (if truthy_opt userId then fetch_connectors else ret tt) ;;
    external (CallExecuteAgent (Sanitize.sanitizePrompt prompt)) (agent_ms o) ;;
    agentResult <- from_ext (agent_out o) ;;
    if negb (ag_success agentResult) then
      (stopped <- isTaskStopped ;;
       if stopped then log_line "Agent execution was stopped"
       else throw (Some (or_default (ag_error agentResult) "Agent execution failed")))
    else
      log_line "Agent completed work" ;;
      updateProgress 90 "Committing and pushing changes" ;;
      currentTask <- db_select ;;
      let finalBranchName :=
        or_default (branchName currentTask)
          (or_default (sb_branchName sandboxResult) (String.append "ai-agent-" taskId)) in
      (if truthy repoUrl && truthy_opt githubToken then publish finalBranchName
       else ret tt) ;;
      updateProgress 100 "Task completed" ;;
      updateStatus Completed "Task completed successfully" ;;
      (if negb keepAlive then log_line "Shutting down sandbox" ;; shutdownSandbox
       else ret tt)
  end)))).

(** The [catch] block of [processTask] (lines 552-563). *)
Definition processTask_catch (e : option string) : M unit :=
  log_line "Task failed" ;;
  updateStatus Error (match e with Some m => m | None => unexpected_error_message end) ;;
  w <- get_world ;;
  match sandbox_var w with Some _ => shutdownSandbox | None => ret tt end.

(** [processTask] (lines 304-564); [sandbox] starts as [null]. *)
Definition processTask : M unit :=
  modify (set_sandbox_var None) ;;
  try_catch processTask_body processTask_catch.

End Pipeline.

Definition is_timeout_write (e : Z * async_event) : bool :=
  match snd e with TimeoutStatusWrite => true | _ => false end.

(** [processTaskWithTimeout] (lines 206-272). The deadline timer fires at
    [deadline]; when the race is lost by the pipeline, the handler awaits
    [logger.error] and then [updateStatus('error', ...)], whose write lands
    two round trips later, while the pipeline keeps running. When the
    pipeline settles first its result is the race's result and the
    handler never runs. *)
Definition processTaskWithTimeout (o : oracle) (maxDuration : Z) (pipeline : M unit) : M unit :=
  fun w =>
    let deadline := now w + Z.max 0 (maxDuration * 60 * 1000) in
    let w0 := mkWorld (now w) (store w)
                (enqueue (deadline + 2 * dt o, TimeoutStatusWrite) (queue w))
                (status_log w) (calls w) (sandbox_var w) in
    match pipeline w0 with
    | (r, w1) =>
        if now w1 <? deadline then
          (r, mkWorld (now w1) (store w1)
                (filter (fun e => negb (is_timeout_write e)) (queue w1))
                (status_log w1) (calls w1) (sandbox_var w1))
        else (Ok tt, w1)
    end.

(** The concurrent writes still pending when the pipeline has ended land
    in time order. *)
Definition settle (w : world) : world :=
  apply_events (queue w) (mkWorld (now w) (store w) [] (status_log w) (calls w) (sandbox_var w)).

(** One run of the background work scheduled by [POST]: the pipeline under
    its deadline, then every remaining concurrent write. *)
Definition run_task (o : oracle) (taskId : string) (prompt : list Z) (repoUrl : string)
    (maxDuration : Z) (keepAlive : bool) (githubToken userId : option string)
    (w : world) : world :=
  settle (snd (processTaskWithTimeout o maxDuration
                 (processTask o taskId prompt repoUrl keepAlive githubToken userId) w)).

(** The statuses written by the pipeline itself, in order. *)
Definition pipeline_writes (l : list (writer * task_status * string)) : list task_status :=
  map (fun e => snd (fst e)) (filter (fun e => writer_eqb (fst (fst e)) Pipeline) l).

(** Reasoning about the monad: [m] moves every world to an [R]-related one. *)
Definition Stable (R : world -> world -> Prop) {A} (m : M A) : Prop :=
  forall w, R w (snd (m w)).

(** A relation on worlds preserved by every primitive step of the
    pipeline other than status writes and publication calls. *)
Class Respects (R : world -> world -> Prop) : Prop := {
  respects_refl : forall w, R w w;
  respects_trans : forall w1 w2 w3, R w1 w2 -> R w2 w3 -> R w1 w3;
  respects_advance : forall d w, R w (advance_world d w);
  respects_update : forall f w, R w (update_store f w);
  respects_call : forall c w, is_publication c = false -> R w (record_call c w);
  respects_sandbox_var : forall s w, R w (set_sandbox_var s w) }.

(** [m] never throws. *)
Definition NoExn {A} (m : M A) : Prop :=
  forall w, exists a, fst (m w) = Ok a.

Definition deadline_entry : writer * task_status * string :=
  (DeadlineHandler, Error, timeout_message).

(** The status log only grows, and a queued deadline write is either still
    queued or has been written. *)
Definition deadline_tracked (w w' : world) : Prop :=
  (exists l, status_log w' = status_log w ++ l) /\
  (forall t, In (t, TimeoutStatusWrite) (queue w) ->
     In (t, TimeoutStatusWrite) (queue w') \/ In deadline_entry (status_log w')).

(** Every capability invoked in between is not a publication call. *)
Definition no_publication_between (w w' : world) : Prop :=
  forall c, In c (calls w') -> In c (calls w) \/ is_publication c = false.

Definition same_pipeline_writes (w w' : world) : Prop :=
  pipeline_writes (status_log w') = pipeline_writes (status_log w).

(** [m] leaves the pipeline's status writes alone, or returns normally
    after adding exactly one [completed] write. *)
Definition AtMostCompleted {A} (m : M A) : Prop :=
  forall w, same_pipeline_writes w (snd (m w)) \/
    (exists a, fst (m w) = Ok a /\
       pipeline_writes (status_log (snd (m w))) =
       pipeline_writes (status_log w) ++ [Completed]).

End Orchestrator.

(** ** Timers of [processTaskWithTimeout] (lines 225-271)

    [setTimeout] schedules a timer and returns its handle, [clearTimeout]
    cancels by handle. The deadline timer is created inside the executor of
    [timeoutPromise] and its handle is not kept. *)
Module Timers.

Inductive timer_kind := WarningTimer | DeadlineTimer.

Record timer := mkTimer { timer_id : nat; fire_at : Z; kind : timer_kind }.

Record timers := mkTimers { next_id : nat; scheduled : list timer }.

Definition setTimeout (k : timer_kind) (now delay : Z) (s : timers) : nat * timers :=
  (next_id s,
   mkTimers (S (next_id s)) (scheduled s ++ [mkTimer (next_id s) (now + Z.max 0 delay) k])).

Definition clearTimeout (id : nat) (s : timers) : timers :=
  mkTimers (next_id s) (filter (fun t => negb (Nat.eqb (timer_id t) id)) (scheduled s)).

(** The timers that have fired by time [t] are no longer scheduled. *)
Definition fire_until (t : Z) (s : timers) : timers :=
  mkTimers (next_id s) (filter (fun tm => t <? fire_at tm) (scheduled s)).

(** The timers still scheduled once [processTaskWithTimeout] has left the
    race, for a run started at [start]. [pipeline_end] is when
    [processTask] settles ([None]: it never does). Both exits of the race
    ([try] after [await Promise.race], and [catch]) call
    [clearTimeout(warningTimeout)]. *)
Definition race_timers (start maxDuration : Z) (pipeline_end : option Z) : list timer :=
  let TASK_TIMEOUT_MS := maxDuration * 60 * 1000 in
  let warningTimeMs := Z.max (TASK_TIMEOUT_MS - 60 * 1000) 0 in
  let '(warningTimeout, s1) := setTimeout WarningTimer start warningTimeMs (mkTimers 0 []) in
  let '(_, s2) := setTimeout DeadlineTimer start TASK_TIMEOUT_MS s1 in
  let deadline := start + Z.max 0 TASK_TIMEOUT_MS in
  let settled := match pipeline_end with
                 | Some t => Z.min t deadline
                 | None => deadline
                 end in
  scheduled (clearTimeout warningTimeout (fire_until settled s2)).

End Timers.

(** ** Encryption of connector secrets ([src/lib/crypto.ts]) *)
Module Crypto.

Definition is_byte (b : Z) : bool := (0 <=? b) && (b <=? 255).
Definition byte_ok (b : Z) : Prop := is_byte b = true.
Definition is_code_unit (c : Z) : bool := (0 <=? c) && (c <=? 65535).
Definition is_high_surrogate (c : Z) : bool := (55296 <=? c) && (c <=? 56319).
Definition is_low_surrogate (c : Z) : bool := (56320 <=? c) && (c <=? 57343).

(** UTF-8 of U+FFFD, written by Node for an unpaired surrogate. *)
Definition replacement_bytes : list Z := [239; 191; 189].
Definition replacement_char : Z := 65533.

(** UTF-8 encoding of one Unicode scalar value. *)
Definition encode_scalar (cp : Z) : list Z :=
  if cp <? 128 then [cp]
  else if cp <? 2048 then [192 + cp / 64; 128 + cp mod 64]
  else if cp <? 65536 then [224 + cp / 4096; 128 + (cp / 64) mod 64; 128 + cp mod 64]
  else [240 + cp / 262144; 128 + (cp / 4096) mod 64; 128 + (cp / 64) mod 64;
        128 + cp mod 64].

(** [Buffer.from(text, 'utf8')] on a string of UTF-16 code units. *)
Fixpoint utf8_encode (s : list Z) : list Z :=
  match s with
  | [] => []
  | c :: r =>
      if is_high_surrogate c then
        match r with
        | d :: r' =>
            if is_low_surrogate d then
              encode_scalar (65536 + (c - 55296) * 1024 + (d - 56320)) ++ utf8_encode r'
            else replacement_bytes ++ utf8_encode r
        | [] => replacement_bytes
        end
      else if is_low_surrogate c then replacement_bytes ++ utf8_encode r
      else encode_scalar c ++ utf8_encode r
  end.

Definition is_cont (b : Z) : bool := (128 <=? b) && (b <=? 191).

(** Range of the second byte of a three- and a four-byte sequence. *)
Definition second_ok3 (b0 b1 : Z) : bool :=
  if b0 =? 224 then (160 <=? b1) && (b1 <=? 191)
  else if b0 =? 237 then (128 <=? b1) && (b1 <=? 159)
  else is_cont b1.
Definition second_ok4 (b0 b1 : Z) : bool :=
  if b0 =? 240 then (144 <=? b1) && (b1 <=? 191)
  else if b0 =? 244 then (128 <=? b1) && (b1 <=? 143)
  else is_cont b1.

(** The UTF-16 code units of a scalar value. *)
Definition utf16_units (cp : Z) : list Z :=
  if cp <? 65536 then [cp]
  else [55296 + (cp - 65536) / 1024; 56320 + (cp - 65536) mod 1024].

(** [buf.toString('utf8')]. Well-formed sequences decode to their scalar
    values; on an ill-formed sequence this model emits U+FFFD and resumes at
    the next byte (only well-formed input reaches it below). *)
Fixpoint utf8_decode (b : list Z) : list Z :=
  match b with
  | [] => []
  | b0 :: r0 =>
      if b0 <? 128 then b0 :: utf8_decode r0
      else if (194 <=? b0) && (b0 <=? 223) then
        match r0 with
        | b1 :: r1 =>
            if is_cont b1 then ((b0 - 192) * 64 + (b1 - 128)) :: utf8_decode r1
            else replacement_char :: utf8_decode r0
        | [] => [replacement_char]
        end
      else if (224 <=? b0) && (b0 <=? 239) then
        match r0 with
        | b1 :: b2 :: r2 =>
            if second_ok3 b0 b1 && is_cont b2 then
              ((b0 - 224) * 4096 + (b1 - 128) * 64 + (b2 - 128)) :: utf8_decode r2
            else replacement_char :: utf8_decode r0
        | _ => replacement_char :: utf8_decode r0
        end
      else if (240 <=? b0) && (b0 <=? 244) then
        match r0 with
        | b1 :: b2 :: b3 :: r3 =>
            if second_ok4 b0 b1 && is_cont b2 && is_cont b3 then
              utf16_units ((b0 - 240) * 262144 + (b1 - 128) * 4096 + (b2 - 128) * 64
                           + (b3 - 128)) ++ utf8_decode r3
            else replacement_char :: utf8_decode r0
        | _ => replacement_char :: utf8_decode r0
        end
      else replacement_char :: utf8_decode r0
  end.

(** [buf.toString('hex')]: two lower-case hex digits per byte. *)
Definition hex_digit (n : Z) : Z := if n <? 10 then 48 + n else 87 + n.

Fixpoint hex_encode (b : list Z) : list Z :=
  match b with
  | [] => []
  | x :: r => hex_digit (x / 16) :: hex_digit (x mod 16) :: hex_encode r
  end.

Definition hex_value (c : Z) : option Z :=
  if (48 <=? c) && (c <=? 57) then Some (c - 48)
  else if (97 <=? c) && (c <=? 102) then Some (c - 87)
  else if (65 <=? c) && (c <=? 70) then Some (c - 55)
  else None.

(** [Buffer.from(s, 'hex')]: pairs of hex digits up to the first invalid
    pair; a trailing odd digit is dropped. *)
Fixpoint hex_decode (s : list Z) : list Z :=
  match s with
  | a :: b :: r =>
      match hex_value a, hex_value b with
      | Some x, Some y => (16 * x + y) :: hex_decode r
      | _, _ => []
      end
  | _ => []
  end.

Definition colon : Z := 58.

(** [s.split(':')]. *)
Fixpoint split_colon (s : list Z) : list (list Z) :=
  match s with
  | [] => [[]]
  | c :: r =>
      if c =? colon then [] :: split_colon r
      else match split_colon r with
           | h :: t => (c :: h) :: t
           | [] => [[c]]
           end
  end.

Inductive outcome (A : Type) := Returns (a : A) | Throws.
Arguments Returns {A}. Arguments Throws {A}.

(** [getEncryptionKey] on [process.env.ENCRYPTION_KEY]. *)
Definition getEncryptionKey (env : option (list Z)) : outcome (option (list Z)) :=
  match env with
  | None | Some [] => Returns None
  | Some key =>
      let keyBuffer := hex_decode key in
      if negb (Nat.eqb (List.length keyBuffer) 32) then Throws else Returns (Some keyBuffer)
  end.

Section Cipher.

(** AES-256-GCM and AES-256-CBC of Node's [crypto] module:
    [gcm_encrypt key iv plaintext = (ciphertext, tag)];
    [gcm_decrypt key iv ciphertext tag] is [None] when [decipher.final()]
    (or [createDecipheriv]) throws. *)
Variable gcm_encrypt : list Z -> list Z -> list Z -> list Z * list Z.
Variable gcm_decrypt : list Z -> list Z -> list Z -> list Z -> option (list Z).
Variable cbc_decrypt : list Z -> list Z -> list Z -> option (list Z).

(** [encrypt]; [iv] is the value of [crypto.randomBytes(IV_LENGTH_GCM)]. *)
Definition encrypt (env : option (list Z)) (iv : list Z) (text : list Z) : outcome (list Z) :=
  match text with
  | [] => Returns text
  | _ =>
      match getEncryptionKey env with
      | Throws | Returns None => Throws
      | Returns (Some key) =>
          let '(encrypted, tag) := gcm_encrypt key iv (utf8_encode text) in
          Returns (hex_encode iv ++ [colon] ++ hex_encode encrypted ++ [colon] ++ hex_encode tag)
      end
  end.

(** [decrypt]; [Returns None] is [null]. The key is read outside the
    [try] block, so a malformed key throws. *)
Definition decrypt (env : option (list Z)) (encryptedText : list Z) : outcome (option (list Z)) :=
  match encryptedText with
  | [] => Returns None
  | _ =>
      match getEncryptionKey env with
      | Throws => Throws
      | Returns None => Returns None
      | Returns (Some key) =>
          if negb (existsb (fun c => c =? colon) encryptedText) then Returns None
          else
            match split_colon encryptedText with
            | [ivHex; encryptedHex; tagHex] =>
                match gcm_decrypt key (hex_decode ivHex) (hex_decode encryptedHex)
                        (hex_decode tagHex) with
                | Some decrypted => Returns (Some (utf8_decode decrypted))
                | None => Returns None
                end
            | [ivHex; encryptedHex] =>
                match cbc_decrypt key (hex_decode ivHex) (hex_decode encryptedHex) with
                | Some decrypted => Returns (Some (utf8_decode decrypted))
                | None => Returns None
                end
            | _ => Returns None
            end
      end
  end.

End Cipher.

(** A string is well-formed UTF-16: code units only, every surrogate
    paired. *)
Fixpoint well_formed_utf16 (s : list Z) : bool :=
  match s with
  | [] => true
  | c :: r =>
      is_code_unit c &&
      (if is_high_surrogate c then
         match r with
         | d :: r' => is_low_surrogate d && well_formed_utf16 r'
         | [] => false
         end
       else negb (is_low_surrogate c) && well_formed_utf16 r)
  end.

End Crypto.

(** ** Concrete inputs of [encrypt] and [decrypt]

    A stand-in for AES-256-GCM that satisfies the correctness assumptions
    of the round trip below (ciphertext = plaintext, empty tag); the key
    [ENCRYPTION_KEY = "00...0"] (64 hex digits) and an all-zero iv. *)
Module CryptoScenarios.

Import Crypto.

Definition identity_gcm_encrypt (key iv p : list Z) : list Z * list Z := (p, []).
Definition identity_gcm_decrypt (key iv c tag : list Z) : option (list Z) := Some c.
Definition failing_cbc_decrypt (key iv c : list Z) : option (list Z) := None.

Definition zero_key_hex : list Z := List.repeat 48 64.
Definition zero_iv : list Z := List.repeat 0 12.

End CryptoScenarios.

(** ** Concrete runs of the orchestrator

    A store that never fails, one millisecond per store or log round trip,
    a sandbox created in 100 ms whose fallback branch name is [fallback],
    and a task row that starts [pending]. *)
Module Scenarios.

Import Trigger Orchestrator.

Definition sandbox_ok : sandbox_result :=
  mkSandboxResult true false None (Some "sbx"%string) (Some "sbx.example"%string)
    (Some "fallback"%string).

Definition oracle_with (agentMs : Z) (agent : ext agent_result) (fails : Z -> bool) : oracle :=
  mkOracle 1 fails 10 100 (Done sandbox_ok) agentMs agent 5 true 5
    (Done (mkPushResult true false)) 0.

Definition initial_world (q : list (Z * async_event)) : world :=
  mkWorld 0 (mkRow Pending "" 0 None None None) q [] [] None.

(** The agent runs for one second and then throws; the user stops the
    task while it runs (at 10.5 s). *)
Definition crashing_agent : oracle :=
  oracle_with 1000 (Raises (Some "agent crashed"%string)) (fun _ => false).
Definition stop_during_agent : world := initial_world [(10500, StopTaskExecution)].

(** The agent succeeds after 100 s, beyond a one-minute budget. *)
Definition slow_agent : oracle :=
  oracle_with 100000 (Done (mkAgentResult true None)) (fun _ => false).

(** The agent succeeds after one second. *)
Definition quick_agent : oracle :=
  oracle_with 1000 (Done (mkAgentResult true None)) (fun _ => false).

(** The AI branch name is persisted at 9.7 s. *)
Definition late_branch_name : world := initial_world [(9700, BranchNameWrite "ai-branch")].

(** Every store call throws. *)
Definition failing_store : oracle :=
  oracle_with 1000 (Done (mkAgentResult true None)) (fun _ => true).

End Scenarios.

(** ** The branch-name wait *)

Module BranchWait.
Import Trigger Orchestrator.

(** The task row, while one write of the AI branch name [b] at time [tb]
    is pending or has landed, and no other concurrent write exists. *)
Definition name_write (tb : Z) (b : string) (w : world) : Prop :=
  (tb <= now w /\ queue w = [] /\ branchName (store w) = Some b) \/
  (now w < tb /\ queue w = [(tb, BranchNameWrite b)] /\
   truthy_opt (branchName (store w)) = false).

(** Before the sandbox is created: the name write, and the status
    [processing]. *)
Definition inv (tb : Z) (b : string) (w : world) : Prop :=
  name_write tb b w /\ status (store w) = Processing.

(** [m] leaves the row's branch name alone, and adds no concurrent write. *)
Definition KeepsName {A} (m : M A) : Prop :=
  forall w, queue w = [] ->
    queue (snd (m w)) = [] /\ branchName (store (snd (m w))) = branchName (store w).

(** The capabilities invoked so far are kept. *)
Definition calls_grow (w w' : world) : Prop := exists l, calls w' = calls w ++ l.

End BranchWait.

(** * Properties *)

Ltac zbool :=
  repeat match goal with
  | |- context [?a <? ?b] => destruct (Z.ltb_spec a b)
  | |- context [?a <=? ?b] => destruct (Z.leb_spec a b)
  | |- context [?a =? ?b] => destruct (Z.eqb_spec a b)
  end.

(** ** Sanitisation *)
Module SanitizeFacts.
Import Sanitize.

Lemma replace_leading_dashes_in : forall c bol s,
  In c (replace_leading_dashes bol s) -> In c s \/ c = space.
Proof.
  intros c bol s; revert bol; induction s as [|x r IH]; intros bol H; simpl in H.
  - contradiction.
  - apply in_app_or in H as [H|H].
    + destruct (bol && (x =? dash)) eqn:E; simpl in H.
      * destruct H as [H|[H|[]]]; subst; [now right|].
        apply andb_true_iff in E as [_ E]; apply Z.eqb_eq in E; subst; left; now left.
      * destruct H as [H|[]]; subst; left; now left.
    + destruct (IH _ H); [left; now right | now right].
Qed.

Lemma replace_leading_dashes_no_dash_line : forall bol s,
  some_line_begins_with_dash bol (replace_leading_dashes bol s) = false.
Proof.
  intros bol s; revert bol; induction s as [|c r IH]; intros bol; simpl; [reflexivity|].
  destruct (bol && (c =? dash)) eqn:E; simpl.
  - apply andb_true_iff in E as [_ E]; apply Z.eqb_eq in E; subst c.
    rewrite andb_false_r; simpl. apply IH.
  - rewrite E; simpl. apply IH.
Qed.

(** C8: the prompt handed to the agent contains no backtick, no [$], no
    backslash, and no line of it begins with [-]. *)
Theorem sanitizePrompt_safe : forall prompt : list Z,
  ~ In backtick (sanitizePrompt prompt) /\
  ~ In dollar (sanitizePrompt prompt) /\
  ~ In backslash (sanitizePrompt prompt) /\
  some_line_begins_with_dash true (sanitizePrompt prompt) = false.
Proof.
  intros prompt; unfold sanitizePrompt.
  split; [|split; [|split]].
  - intros H; apply replace_leading_dashes_in in H as [H|H]; [|discriminate].
    unfold remove_backslashes, remove_dollars, replace_backticks in H.
    apply filter_In in H as [H _]; apply filter_In in H as [H _].
    apply in_map_iff in H as [x [Hx _]].
    revert Hx; destruct (Z.eqb_spec x backtick); unfold quote, backtick in *; intros Hx;
      [discriminate | congruence].
  - intros H; apply replace_leading_dashes_in in H as [H|H]; [|discriminate].
    apply filter_In in H as [H _]; apply filter_In in H as [_ H]; discriminate.
  - intros H; apply replace_leading_dashes_in in H as [H|H]; [|discriminate].
    apply filter_In in H as [_ H]; discriminate.
  - apply replace_leading_dashes_no_dash_line.
Qed.

End SanitizeFacts.

(** ** Trigger endpoint *)
Module TriggerFacts.
Import Trigger.



End TriggerFacts.

(** ** Timers *)
Module TimerFacts.
Import Timers.

(** The deadline timer of a run whose pipeline settles after one second of
    a one-minute budget is still scheduled, to fire at 60 s. *)
Lemma race_timers_deadline_left :
  race_timers 0 1 (Some 1000) = [mkTimer 1 60000 DeadlineTimer].
Proof. reflexivity. Qed.

(** C3 (the general case): whenever the pipeline settles before the
    deadline, the warning timer is gone but the deadline timer stays
    scheduled and fires after the pipeline has finished. *)
Theorem race_timers_deadline_not_cleared : forall start maxDuration t_end,
  0 < maxDuration -> start <= t_end < start + maxDuration * 60000 ->
  race_timers start maxDuration (Some t_end) =
  [mkTimer 1 (start + maxDuration * 60000) DeadlineTimer].
Proof.
  intros start d t Hd Ht.
  unfold race_timers, setTimeout, clearTimeout, fire_until; simpl.
  replace (d * 60 * 1000) with (d * 60000) by lia.
  rewrite (Z.max_r 0 (d * 60000)) by lia.
  rewrite Z.min_l by lia.
  simpl; zbool; simpl; try lia; reflexivity.
Qed.

Lemma race_timers_deadline_not_cleared_witness :
  (0 < 1 /\ 0 <= 1000 < 0 + 1 * 60000) /\
  race_timers 0 1 (Some 1000) = [mkTimer 1 (0 + 1 * 60000) DeadlineTimer].
Proof.
  split; [lia|]. apply (race_timers_deadline_not_cleared 0 1 1000); lia.
Defined.

(** The warning timer never survives the race. *)
Lemma race_timers_warning_cleared : forall start maxDuration pipeline_end tm,
  In tm (race_timers start maxDuration pipeline_end) -> kind tm = DeadlineTimer.
Proof.
  intros start d pe tm H.
  unfold race_timers, setTimeout, clearTimeout, fire_until in H; simpl in H.
  repeat match type of H with context [if ?b then _ else _] => destruct b end;
  simpl in H; repeat destruct H as [<-|H]; try contradiction; reflexivity.
Qed.

End TimerFacts.

(** ** Orchestrator *)
Module OrchestratorFacts.
Import Trigger Orchestrator Scenarios.

Lemma apply_event_fields : forall w ev,
  now (apply_event w ev) = now w /\ queue (apply_event w ev) = queue w /\
  calls (apply_event w ev) = calls w /\ sandbox_var (apply_event w ev) = sandbox_var w.
Proof.
  intros w ev; destruct ev; simpl;
    try destruct (task_status_eqb (status (store w)) Processing); simpl; auto.
Qed.

Lemma apply_events_fields : forall es w,
  now (apply_events es w) = now w /\ queue (apply_events es w) = queue w /\
  calls (apply_events es w) = calls w /\ sandbox_var (apply_events es w) = sandbox_var w.
Proof.
  unfold apply_events; induction es as [|e es IH]; intros w; simpl; [auto|].
  destruct (IH (apply_event w (snd e))) as (H1 & H2 & H3 & H4).
  destruct (apply_event_fields w (snd e)) as (G1 & G2 & G3 & G4).
  rewrite H1, H2, H3, H4; auto.
Qed.

Lemma advance_world_now : forall d w, now (advance_world d w) = now w + d.
Proof. intros; unfold advance_world; now rewrite (proj1 (apply_events_fields _ _)). Qed.

Lemma advance_world_calls : forall d w, calls (advance_world d w) = calls w.
Proof. intros; unfold advance_world; now rewrite (proj1 (proj2 (proj2 (apply_events_fields _ _)))). Qed.

(** Without pending concurrent writes, time passing changes nothing else. *)
Lemma advance_world_quiet : forall d w, queue w = [] ->
  advance_world d w = mkWorld (now w + d) (store w) [] (status_log w) (calls w) (sandbox_var w).
Proof. intros d w H; unfold advance_world; rewrite H; reflexivity. Qed.

Lemma apply_event_log : forall w ev, exists l, status_log (apply_event w ev) = status_log w ++ l.
Proof.
  intros w ev; destruct ev; simpl.
  - destruct (task_status_eqb (status (store w)) Processing); simpl; eauto.
    exists []; now rewrite app_nil_r.
  - exists []; now rewrite app_nil_r.
  - eauto.
Qed.

Lemma apply_events_log : forall es w, exists l, status_log (apply_events es w) = status_log w ++ l.
Proof.
  unfold apply_events; induction es as [|e es IH]; intros w; simpl.
  - exists []; now rewrite app_nil_r.
  - destruct (IH (apply_event w (snd e))) as [l1 H1].
    destruct (apply_event_log w (snd e)) as [l2 H2].
    exists (l2 ++ l1); rewrite H1, H2, app_assoc; reflexivity.
Qed.

Lemma apply_events_timeout : forall es w t,
  In (t, TimeoutStatusWrite) es -> In deadline_entry (status_log (apply_events es w)).
Proof.
  unfold apply_events; induction es as [|e es IH]; intros w t H; simpl in H; [contradiction|].
  cbn [fold_left]; destruct H as [Heq|H]; [subst e; cbn [snd]|eapply IH; eauto].
  destruct (apply_events_log es (apply_event w TimeoutStatusWrite)) as [l Hl].
  unfold apply_events in Hl; rewrite Hl; simpl.
  apply in_or_app; left; apply in_or_app; right; now left.
Qed.

Section Stability.

Context {R : world -> world -> Prop} `{Respects R}.

Lemma stable_ret : forall A (a : A), Stable R (ret a).
Proof. intros A a w; apply respects_refl. Qed.

Lemma stable_throw : forall A e, Stable R (@throw A e).
Proof. intros A e w; apply respects_refl. Qed.

Lemma stable_get_world : Stable R get_world.
Proof. intros w; apply respects_refl. Qed.

Lemma stable_modify : forall f, (forall w, R w (f w)) -> Stable R (modify f).
Proof. intros f Hf w; apply Hf. Qed.

Lemma stable_advance : forall d, Stable R (advance d).
Proof. intros d w; apply respects_advance. Qed.

Lemma stable_bind : forall A B (m : M A) (k : A -> M B),
  Stable R m -> (forall a, Stable R (k a)) -> Stable R (bind m k).
Proof.
  intros A B m k Hm Hk w; unfold bind.
  specialize (Hm w); destruct (m w) as [[a|e] w'] eqn:E; simpl in *; [|exact Hm].
  eapply respects_trans; [exact Hm | apply Hk].
Qed.

Lemma stable_try_catch : forall A (m : M A) h,
  Stable R m -> (forall e, Stable R (h e)) -> Stable R (try_catch m h).
Proof.
  intros A m h Hm Hh w; unfold try_catch.
  specialize (Hm w); destruct (m w) as [[a|e] w'] eqn:E; simpl in *; [exact Hm|].
  eapply respects_trans; [exact Hm | apply Hh].
Qed.

End Stability.

Ltac stable_step :=
  match goal with
  | |- Stable _ (bind _ _) => apply stable_bind; [ | intros ? ]
  | |- Stable _ (try_catch _ _) => apply stable_try_catch; [ | intros ? ]
  | |- Stable _ (ret _) => apply stable_ret
  | |- Stable _ (throw _) => apply stable_throw
  | |- Stable _ get_world => apply stable_get_world
  | |- Stable _ (advance _) => apply stable_advance
  | |- Stable _ (modify _) => apply stable_modify; intros ?
  | |- Stable _ (if ?b then _ else _) => destruct b eqn:?
  | |- Stable _ (match ?x with _ => _ end) => destruct x eqn:?
  | |- Stable _ (let _ := _ in _) => cbv zeta
  | |- _ _ (update_store _ _) => apply respects_update
  | |- _ _ (set_sandbox_var _ _) => apply respects_sandbox_var
  | |- _ _ (record_call _ _) => apply respects_call; reflexivity
  end.

Ltac unfold_pipeline :=
  unfold log_line, updateProgress, isTaskStopped, db_update, db_select,
    insert_user_message, sleep, external, shutdownSandbox, poll_branchName,
    waitForBranchName, stop_checkpoint, fetch_connectors, from_ext.

Ltac stable_tac := repeat first [stable_step | progress unfold_pipeline].

Section Helpers.

Context {R : world -> world -> Prop} `{Respects R}.
Variable o : oracle.

Lemma stable_wait_loop : forall fuel maxWaitMs startTime,
  Stable R (wait_loop o fuel maxWaitMs startTime).
Proof.
  intros fuel; induction fuel as [|f IH]; intros m s; simpl; stable_tac; apply IH.
Qed.

Lemma stable_waitForBranchName : forall maxWaitMs, Stable R (waitForBranchName o maxWaitMs).
Proof. intros; unfold waitForBranchName; stable_tac; apply stable_wait_loop. Qed.

Lemma stable_isTaskStopped : Stable R (isTaskStopped o).
Proof. stable_tac. Qed.

Lemma stable_log_line : forall msg, Stable R (log_line o msg).
Proof. intros; stable_tac. Qed.

Lemma stable_shutdownSandbox : Stable R (shutdownSandbox o).
Proof. stable_tac. Qed.

Lemma stable_updateProgress : forall p msg, Stable R (updateProgress o p msg).
Proof. intros; stable_tac. Qed.

Lemma stable_updateStatus : forall s msg,
  (forall w, R w (log_status s msg w)) -> Stable R (updateStatus o s msg).
Proof.
  intros s msg Hlog; unfold updateStatus; stable_tac.
  eapply respects_trans; [apply respects_update | apply Hlog].
Qed.

Lemma stable_publish : forall b,
  (forall c w, R w (record_call c w)) -> Stable R (publish o b).
Proof.
  intros b Hc; unfold publish;
    repeat first [stable_step | progress unfold_pipeline | apply Hc].
Qed.

(** Every run of [processTask] moves the world to an [R]-related one when
    [R] is also preserved by status writes, and by publication calls when
    publication is enabled. *)
Lemma stable_processTask : forall taskId prompt repoUrl keepAlive githubToken userId,
  (forall s msg w, R w (log_status s msg w)) ->
  (truthy repoUrl && truthy_opt githubToken = false \/
   forall c w, R w (record_call c w)) ->
  Stable R (processTask o taskId prompt repoUrl keepAlive githubToken userId).
Proof.
  intros taskId prompt repoUrl keepAlive tok uid Hlog Hpub.
  unfold processTask, processTask_body, processTask_catch.
  repeat first
    [ apply stable_updateStatus; apply Hlog
    | apply stable_waitForBranchName
    | apply stable_publish; destruct Hpub as [Hpub|Hpub]; [congruence | apply Hpub]
    | stable_step
    | progress unfold_pipeline ].
Qed.

End Helpers.

Lemma pipeline_writes_app : forall l1 l2,
  pipeline_writes (l1 ++ l2) = pipeline_writes l1 ++ pipeline_writes l2.
Proof. intros; unfold pipeline_writes; now rewrite filter_app, map_app. Qed.

Lemma apply_event_pipeline_writes : forall w ev,
  pipeline_writes (status_log (apply_event w ev)) = pipeline_writes (status_log w).
Proof.
  intros w ev; destruct ev; simpl;
    try destruct (task_status_eqb (status (store w)) Processing); simpl;
    rewrite ?pipeline_writes_app, ?app_nil_r; reflexivity.
Qed.

Lemma apply_events_pipeline_writes : forall es w,
  pipeline_writes (status_log (apply_events es w)) = pipeline_writes (status_log w).
Proof.
  unfold apply_events; induction es as [|e es IH]; intros w; simpl; [reflexivity|].
  rewrite IH; apply apply_event_pipeline_writes.
Qed.

#[export] Instance deadline_tracked_respects : Respects deadline_tracked.
Proof.
  split.
  - intros w; split; [exists []; now rewrite app_nil_r | now left].
  - intros w1 w2 w3 [[l1 H1] Q1] [[l2 H2] Q2]; split.
    + exists (l1 ++ l2); now rewrite H2, H1, app_assoc.
    + intros t Ht; destruct (Q1 t Ht) as [Hq|Hl]; [now apply Q2|].
      right; rewrite H2; apply in_or_app; now left.
  - intros d w; split.
    { unfold advance_world; edestruct apply_events_log as [l Hl]; exists l; rewrite Hl; reflexivity. }
    intros t Ht; destruct (t <=? now w + d) eqn:E.
    + right; unfold advance_world; eapply apply_events_timeout.
      apply filter_In; split; [exact Ht | exact E].
    + left; unfold advance_world; rewrite (proj1 (proj2 (apply_events_fields _ _))); simpl.
      apply filter_In; split; [exact Ht|]; simpl; now rewrite E.
  - intros f w; split; [exists []; now rewrite app_nil_r | now left].
  - intros c w _; split; [exists []; now rewrite app_nil_r | now left].
  - intros s w; split; [exists []; now rewrite app_nil_r | now left].
Qed.

#[export] Instance no_publication_between_respects : Respects no_publication_between.
Proof.
  split; unfold no_publication_between.
  - now left.
  - intros w1 w2 w3 H1 H2 c Hc; destruct (H2 c Hc); [now apply H1 | now right].
  - intros d w c Hc; left; now rewrite advance_world_calls in Hc.
  - intros f w c Hc; now left.
  - intros c w Hp c' Hc'; simpl in Hc'; apply in_app_or in Hc' as [H|[<-|[]]];
      [now left | now right].
  - intros s w c Hc; now left.
Qed.

#[export] Instance same_pipeline_writes_respects : Respects same_pipeline_writes.
Proof.
  split; unfold same_pipeline_writes.
  - reflexivity.
  - intros w1 w2 w3 H1 H2; congruence.
  - intros d w; unfold advance_world; now rewrite apply_events_pipeline_writes.
  - reflexivity.
  - reflexivity.
  - reflexivity.
Qed.

(** C10: when the store read of a cancellation check throws, [isTaskStopped]
    answers [false], and the checkpoint goes on with the rest of the
    pipeline instead of returning. *)
Theorem isTaskStopped_store_failure : forall o w,
  db_fails o (now w + dt o) = true ->
  fst (isTaskStopped o w) = Ok false /\
  (forall msg cleanup k, stop_checkpoint o msg cleanup k w = k (snd (isTaskStopped o w))).
Proof.
  intros o w H.
  unfold stop_checkpoint, isTaskStopped, bind, advance, get_world; cbn -[advance_world].
  rewrite advance_world_now, H; split; reflexivity.
Qed.

Lemma enqueue_in : forall e q, In e (enqueue e q).
Proof.
  intros e q; induction q as [|e' q IH]; simpl; [now left|].
  destruct (fst e <? fst e'); [now left | right; exact IH].
Qed.

Lemma settle_keeps_log : forall w x, In x (status_log w) -> In x (status_log (settle w)).
Proof.
  intros w x Hx; unfold settle.
  edestruct apply_events_log as [l Hl]; rewrite Hl; simpl.
  apply in_or_app; now left.
Qed.

Lemma settle_applies_timeout : forall w t,
  In (t, TimeoutStatusWrite) (queue w) -> In deadline_entry (status_log (settle w)).
Proof. intros w t Ht; unfold settle; eapply apply_events_timeout; exact Ht. Qed.

(** C4: when the deadline timer fires before [processTask] has settled, the
    task's status is written [error] with the timeout message, which differs
    from the generic message and from the pipeline's own failure messages. *)
Theorem deadline_sets_timeout_error :
  forall o taskId prompt repoUrl maxDuration keepAlive githubToken userId w,
  now w + Z.max 0 (maxDuration * 60 * 1000) <=
    now (snd (processTaskWithTimeout o maxDuration
                (processTask o taskId prompt repoUrl keepAlive githubToken userId) w)) ->
  In (DeadlineHandler, Error, timeout_message)
     (status_log (run_task o taskId prompt repoUrl maxDuration keepAlive githubToken userId w)) /\
  timeout_message <> unexpected_error_message /\
  timeout_message <> "Failed to create sandbox"%string /\
  timeout_message <> "Agent execution failed"%string /\
  timeout_message <> "Sandbox is not available for agent execution"%string.
Proof.
  intros o taskId prompt repoUrl maxDuration keepAlive tok uid w Hlate.
  split; [| repeat split; discriminate].
  assert (HS : Stable deadline_tracked
                 (processTask o taskId prompt repoUrl keepAlive tok uid)).
  { apply stable_processTask.
    - intros s msg w'; split; [eexists; reflexivity | now left].
    - right; intros c w'; split; [exists []; now rewrite app_nil_r | now left]. }
  revert Hlate; unfold run_task, processTaskWithTimeout; cbv zeta.
  match goal with
  | |- context [processTask o taskId prompt repoUrl keepAlive tok uid ?x] =>
      specialize (HS x); destruct (processTask o taskId prompt repoUrl keepAlive tok uid x)
        as [r w1] eqn:E
  end.
  simpl in HS; destruct HS as [_ HQ].
  destruct (Z.ltb_spec (now w1) (now w + Z.max 0 (maxDuration * 60 * 1000))) as [Hlt|Hge];
    simpl; intros Hlate; [lia|].
  destruct (HQ (now w + Z.max 0 (maxDuration * 60 * 1000) + 2 * dt o)) as [Hq|Hl].
  - apply enqueue_in.
  - eapply settle_applies_timeout; exact Hq.
  - apply settle_keeps_log; exact Hl.
Qed.

(** *** The pipeline's own status writes *)

Lemma pw_advance_world : forall d w,
  pipeline_writes (status_log (advance_world d w)) = pipeline_writes (status_log w).
Proof. intros; apply (respects_advance (R := same_pipeline_writes)). Qed.

Lemma updateStatus_writes : forall o s msg w,
  fst (updateStatus o s msg w) = Ok tt /\
  pipeline_writes (status_log (snd (updateStatus o s msg w))) =
  pipeline_writes (status_log w) ++ [s].
Proof.
  intros o s msg w; unfold updateStatus, bind, advance, modify; cbn -[advance_world pipeline_writes].
  split; [reflexivity|].
  rewrite pipeline_writes_app, pw_advance_world; reflexivity.
Qed.

Lemma amc_of_stable : forall A (m : M A),
  Stable same_pipeline_writes m -> AtMostCompleted m.
Proof. intros A m H w; left; apply H. Qed.

Lemma amc_bind_stable : forall A B (m : M A) (k : A -> M B),
  Stable same_pipeline_writes m -> (forall a, AtMostCompleted (k a)) ->
  AtMostCompleted (bind m k).
Proof.
  intros A B m k Hm Hk w; unfold bind, same_pipeline_writes in *.
  pose proof (Hm w) as Hw; revert Hw.
  destruct (m w) as [[a|e] w'] eqn:E; simpl; intros Hw; [|now left].
  destruct (Hk a w') as [H|(b & Hb & H)]; [left | right; exists b; split; [exact Hb|]];
    congruence.
Qed.

Lemma amc_bind_completed : forall A B (m : M A) (k : A -> M B),
  AtMostCompleted m -> (forall a, Stable same_pipeline_writes (k a)) ->
  (forall a, NoExn (k a)) -> AtMostCompleted (bind m k).
Proof.
  intros A B m k Hm Hk Hn w; unfold bind.
  pose proof (Hm w) as Hw; revert Hw.
  destruct (m w) as [[a|e] w'] eqn:E; simpl; intros [H|(a' & Ha & H)].
  - left; pose proof (Hk a w'); unfold same_pipeline_writes in *; congruence.
  - injection Ha as <-; destruct (Hn a w') as [b Hb].
    right; exists b; split; [exact Hb|].
    pose proof (Hk a w'); unfold same_pipeline_writes in *; congruence.
  - left; exact H.
  - discriminate.
Qed.

Lemma amc_updateStatus_completed : forall o msg, AtMostCompleted (updateStatus o Completed msg).
Proof.
  intros o msg w; right; exists tt.
  destruct (updateStatus_writes o Completed msg w) as [H1 H2]; split; assumption.
Qed.

Ltac spw_stable :=
  repeat first
    [ apply stable_waitForBranchName
    | apply stable_publish; intros; reflexivity
    | stable_step
    | progress unfold_pipeline ].

Ltac noexn_tac :=
  unfold NoExn; intros;
  repeat match goal with |- context [if ?b then _ else _] => destruct b end;
  eexists; reflexivity.

Ltac amc_step :=
  match goal with
  | |- AtMostCompleted (bind (updateStatus _ Completed _) _) =>
      apply amc_bind_completed;
      [apply amc_updateStatus_completed | intros ?; spw_stable | intros ?; noexn_tac]
  | |- AtMostCompleted (bind _ _) => apply amc_bind_stable; [spw_stable | intros ?]
  | |- AtMostCompleted (if ?b then _ else _) => destruct b eqn:?
  | |- AtMostCompleted (match ?x with _ => _ end) => destruct x eqn:?
  | |- AtMostCompleted (let _ := _ in _) => cbv zeta
  | |- AtMostCompleted (stop_checkpoint _ _ _ _) => unfold stop_checkpoint
  | |- AtMostCompleted _ => apply amc_of_stable; spw_stable
  end.

Lemma writes_updateStatus_then : forall o s msg A (k : unit -> M A) w,
  (forall a, AtMostCompleted (k a)) ->
  pipeline_writes (status_log (snd (bind (updateStatus o s msg) k w))) =
    pipeline_writes (status_log w) ++ [s] \/
  (exists a, fst (bind (updateStatus o s msg) k w) = Ok a /\
   pipeline_writes (status_log (snd (bind (updateStatus o s msg) k w))) =
   pipeline_writes (status_log w) ++ [s; Completed]).
Proof.
  intros o s msg A k w Hk.
  pose proof (updateStatus_writes o s msg w) as [Hok Hpw]; revert Hok Hpw.
  unfold bind; destruct (updateStatus o s msg w) as [r w1]; cbn [fst snd].
  intros -> Hpw.
  destruct (Hk tt w1) as [H|(a & Ha & H)]; unfold same_pipeline_writes in *.
  - left; now rewrite H, Hpw.
  - right; exists a; split; [exact Ha|]. rewrite H, Hpw, <- app_assoc; reflexivity.
Qed.

Lemma processTask_body_writes : forall o taskId prompt repoUrl keepAlive githubToken userId w,
  let res := processTask_body o taskId prompt repoUrl keepAlive githubToken userId w in
  pipeline_writes (status_log (snd res)) = pipeline_writes (status_log w) ++ [Processing] \/
  (fst res = Ok tt /\
   pipeline_writes (status_log (snd res)) =
   pipeline_writes (status_log w) ++ [Processing; Completed]).
Proof.
  intros o taskId prompt repoUrl keepAlive tok uid w res; subst res.
  unfold processTask_body.
  match goal with
  | |- context [bind (updateStatus o Processing ?msg) ?k w] =>
      destruct (writes_updateStatus_then o Processing msg unit k w) as [H|([] & H)];
      [intros a; repeat amc_step | left; exact H | right; exact H]
  end.
Qed.

Lemma processTask_catch_writes : forall o e w,
  pipeline_writes (status_log (snd (processTask_catch o e w))) =
  pipeline_writes (status_log w) ++ [Error].
Proof.
  intros o e w; unfold processTask_catch, log_line, bind, advance, get_world.
  cbn -[advance_world updateStatus pipeline_writes].
  pose proof (updateStatus_writes o Error
    (match e with Some m => m | None => unexpected_error_message end)
    (advance_world (dt o) w)) as [Hok Hpw].
  destruct (updateStatus o Error _ _) as [r w1]; simpl in Hok; subst r.
  rewrite pw_advance_world in Hpw; rewrite <- Hpw.
  destruct (sandbox_var w1); [|reflexivity].
  unfold shutdownSandbox, external, bind, modify, advance; cbn -[advance_world pipeline_writes].
  now rewrite pw_advance_world.
Qed.

Lemma processTask_writes : forall o taskId prompt repoUrl keepAlive githubToken userId w,
  let w' := snd (processTask o taskId prompt repoUrl keepAlive githubToken userId w) in
  exists t, In t [[Processing]; [Processing; Completed]; [Processing; Error]] /\
    pipeline_writes (status_log w') = pipeline_writes (status_log w) ++ t.
Proof.
  intros o taskId prompt repoUrl keepAlive tok uid w w'; subst w'.
  unfold processTask, bind at 1, modify, try_catch.
  pose proof (processTask_body_writes o taskId prompt repoUrl keepAlive tok uid
                (set_sandbox_var None w)) as Hb; simpl in Hb.
  destruct (processTask_body o taskId prompt repoUrl keepAlive tok uid (set_sandbox_var None w))
    as [[[]|e] w1]; simpl in Hb |- *.
  - destruct Hb as [H|[_ H]]; eexists; (split; [|exact H]); simpl; auto.
  - destruct Hb as [H|[Hf _]]; [|discriminate].
    exists [Processing; Error]; split; [simpl; auto|].
    rewrite processTask_catch_writes, H, <- app_assoc; reflexivity.
Qed.

(** In every run, the statuses written by the pipeline itself are
    [processing] followed by at most one terminal status, [completed] or
    [error]. *)
Theorem pipeline_status_writes :
  forall o taskId prompt repoUrl maxDuration keepAlive githubToken userId w,
  exists t, In t [[Processing]; [Processing; Completed]; [Processing; Error]] /\
    pipeline_writes (status_log
      (run_task o taskId prompt repoUrl maxDuration keepAlive githubToken userId w)) =
    pipeline_writes (status_log w) ++ t.
Proof.
  intros o taskId prompt repoUrl maxDuration keepAlive tok uid w.
  unfold run_task, settle, processTaskWithTimeout; cbv zeta.
  match goal with
  | |- context [processTask o taskId prompt repoUrl keepAlive tok uid ?x] =>
      destruct (processTask_writes o taskId prompt repoUrl keepAlive tok uid x) as (t & Ht & Hw);
      destruct (processTask o taskId prompt repoUrl keepAlive tok uid x) as [r w1]
  end.
  cbn [snd] in Hw; exists t; split; [exact Ht|].
  destruct (_ <? _); cbn [snd]; rewrite apply_events_pipeline_writes; simpl; exact Hw.
Qed.

(** C2 (code bug): with a one-minute budget and an agent that runs for
    100 s, the deadline handler writes [error] with the timeout message, but
    [Promise.race] does not stop [processTask]: its unconditional
    [updateStatus('completed')] later overwrites the terminal [error], and
    the final status is [completed]. *)
Theorem deadline_error_overwritten_by_completed :
  let w := run_task slow_agent "T" [1; 2] "" 1 false None None (initial_world []) in
  status_log w =
    [(Pipeline, Processing, "Task created, preparing to start..."%string);
     (DeadlineHandler, Error, timeout_message);
     (Pipeline, Completed, "Task completed successfully"%string)] /\
  status (store w) = Completed.
Proof. vm_compute; split; reflexivity. Qed.

(** C1 (code bug): the user stops the task while the agent runs; the agent
    then throws, and the [catch] block of [processTask] writes [error] over
    [stopped] without checking for a stop. *)
Theorem stop_overwritten_by_agent_failure :
  let w := run_task crashing_agent "T2" [1; 2] "" 60 false None None stop_during_agent in
  status_log w =
    [(Pipeline, Processing, "Task created, preparing to start..."%string);
     (StopRequest, Stopped, stop_message);
     (Pipeline, Error, "agent crashed"%string)] /\
  status (store w) = Error.
Proof. vm_compute; split; reflexivity. Qed.

Lemma deadline_sets_timeout_error_witness :
  now (initial_world []) + Z.max 0 (1 * 60 * 1000) <=
    now (snd (processTaskWithTimeout slow_agent 1
                (processTask slow_agent "T" [1; 2] "" false None None) (initial_world []))) /\
  In (DeadlineHandler, Error, timeout_message)
     (status_log (run_task slow_agent "T" [1; 2] "" 1 false None None (initial_world []))).
Proof.
  assert (H : now (initial_world []) + Z.max 0 (1 * 60 * 1000) <=
    now (snd (processTaskWithTimeout slow_agent 1
                (processTask slow_agent "T" [1; 2] "" false None None) (initial_world []))))
    by (apply Z.leb_le; vm_compute; reflexivity).
  split; [exact H|].
  exact (proj1 (deadline_sets_timeout_error slow_agent "T" [1; 2] "" 1 false None None
                  (initial_world []) H)).
Defined.

Lemma isTaskStopped_store_failure_witness :
  db_fails failing_store (now (initial_world []) + dt failing_store) = true /\
  fst (isTaskStopped failing_store (initial_world [])) = Ok false.
Proof.
  split; [reflexivity|].
  exact (proj1 (isTaskStopped_store_failure failing_store (initial_world []) eq_refl)).
Defined.

(** *** Runs without concurrent writes *)

Lemma wait_loop_quiet : forall o fuel maxWait start t st l c s,
  (forall t, db_fails o t = false) ->
  exists r t', wait_loop o fuel maxWait start (mkWorld t st [] l c s) =
               (Ok r, mkWorld t' st [] l c s).
Proof.
  intros o fuel maxWait start t st l c s Hdb; revert t.
  induction fuel as [|f IH]; intros t; cbn -[poll_branchName sleep].
  - do 2 eexists; reflexivity.
  - destruct (t - start <? maxWait); [|do 2 eexists; reflexivity].
    unfold poll_branchName, bind, advance, get_world, sleep; cbn -[wait_loop].
    rewrite Hdb. destruct (truthy_opt (branchName st)); cbn -[wait_loop];
      [destruct (branchName st); cbn -[wait_loop]; [do 2 eexists; reflexivity | apply IH]
      | apply IH].
Qed.

(** C7: without a repository URL or without a GitHub token no publication
    call (commit-message derivation, push) is made; and when nothing else
    fails (no concurrent write, the store never fails, the sandbox is created
    and the agent succeeds) the task ends [completed] with progress 100. *)
Theorem no_repository_no_publication :
  forall o taskId prompt repoUrl keepAlive githubToken userId w,
  truthy repoUrl && truthy_opt githubToken = false ->
  let w' := snd (processTask o taskId prompt repoUrl keepAlive githubToken userId w) in
  no_publication_between w w' /\
  (forall r a s, queue w = [] -> (forall t, db_fails o t = false) ->
     sandbox_out o = Done r -> sb_success r = true -> sb_sandbox r = Some s ->
     agent_out o = Done a -> ag_success a = true ->
     status (store w') = Completed /\ progress (store w') = 100).
Proof.
  intros o taskId prompt repoUrl keepAlive tok uid w Hg w'; split.
  { apply stable_processTask; [intros; intros c' Hc'; now left | now left]. }
  intros r a s Hq Hdb Hsb Hsbs Hsbx Hag Hags; subst w'.
  destruct w as [t st q l c sv]; simpl in Hq; subst q.
  unfold processTask, processTask_body, stop_checkpoint, isTaskStopped, updateStatus,
    updateProgress, insert_user_message, log_line, waitForBranchName, external, db_update,
    db_select, shutdownSandbox, fetch_connectors.
  rewrite Hsb, Hag; unfold from_ext.
  unfold try_catch, bind, modify, advance, get_world, ret, throw.
  cbn -[wait_loop truthy truthy_opt andb].
  repeat first
    [ rewrite Hdb | rewrite Hsbs | rewrite Hsbx | rewrite Hags
    | match goal with
      | |- context [wait_loop o ?f ?m ?b
                      {| now := ?t; store := ?st; queue := []; status_log := ?l;
                         calls := ?c; sandbox_var := ?v |}] =>
          destruct (wait_loop_quiet o f m b t st l c v Hdb) as (?x & ?t' & ->)
      end
    | progress cbn -[wait_loop truthy truthy_opt andb]
    | match goal with
      | |- context [if ?b then _ else _] => destruct b eqn:?; simpl in *; try congruence
      end ].
  all: split; reflexivity.
Qed.

Lemma no_repository_no_publication_witness :
  truthy "" && truthy_opt None = false /\
  status (store (snd (processTask quick_agent "T" [1; 2] "" false None None
                        (initial_world [])))) = Completed.
Proof.
  split; [reflexivity|].
  refine (proj1 (proj2 (no_repository_no_publication quick_agent "T" [1; 2] "" false None None
                          (initial_world []) eq_refl)
                   sandbox_ok (mkAgentResult true None) "sbx"%string eq_refl _ eq_refl eq_refl eq_refl
                   eq_refl eq_refl)).
  intros; reflexivity.
Defined.

(** *** Waiting for the branch name *)

Lemma poll_branchName_spec : forall o w,
  exists v, poll_branchName o w = (Ok v, advance_world (dt o) w) /\
    match v with Some b => truthy b = true | None => True end.
Proof.
  intros o w; unfold poll_branchName, bind, advance, get_world, ret; cbn -[advance_world].
  destruct (db_fails o _); [now exists None|].
  destruct (branchName (store (advance_world (dt o) w))) as [b|] eqn:E; simpl;
    [destruct (truthy b) eqn:Eb; [now exists (Some b) | now exists None] | now exists None].
Qed.

Lemma bind_Ok : forall A B (m : M A) (k : A -> M B) w a w',
  m w = (Ok a, w') -> bind m k w = k a w'.
Proof. intros A B m k w a w' H; unfold bind; now rewrite H. Qed.

Lemma wait_loop_S : forall o f maxWait start w,
  wait_loop o (S f) maxWait start w =
  (if now w - start <? maxWait then
     (r <- poll_branchName o ;;
      match r with
      | Some b => ret (Some b)
      | None => sleep 500 ;; wait_loop o f maxWait start
      end) w
   else ret None w).
Proof.
  intros; cbn [wait_loop]; unfold bind at 1, get_world; destruct (_ <? _); reflexivity.
Qed.

Lemma wait_loop_spec : forall o fuel maxWait start w,
  0 <= dt o -> start <= now w -> Z.of_nat fuel + (now w - start) > maxWait ->
  let res := wait_loop o fuel maxWait start w in
  (exists v, fst res = Ok v /\
     match v with Some b => truthy b = true | None => maxWait <= now (snd res) - start end) /\
  now (snd res) - start <= Z.max (now w - start) (maxWait + dt o + 500).
Proof.
  intros o fuel maxWait start; induction fuel as [|f IH]; intros w Hdt Hs Hf res; subst res.
  - simpl in Hf |- *; split; [exists None; split; [reflexivity | lia] | lia].
  - rewrite wait_loop_S; destruct (Z.ltb_spec (now w - start) maxWait) as [Hlt|Hge].
    + destruct (poll_branchName_spec o w) as (v & Hp & Hv); rewrite (bind_Ok _ _ _ _ _ _ _ Hp).
      destruct v as [b|].
      * unfold ret; cbn [fst snd]; rewrite advance_world_now.
        split; [exists (Some b); now split | lia].
      * rewrite (bind_Ok _ _ (sleep 500) _ _ tt (advance_world 500 (advance_world (dt o) w))
                   eq_refl).
        set (w2 := advance_world 500 (advance_world (dt o) w)).
        assert (Hn : now w2 = now w + dt o + 500) by (subst w2; now rewrite !advance_world_now).
        rewrite Nat2Z.inj_succ in Hf.
        destruct (IH w2) as [H1 H2]; [assumption | lia | lia |].
        split; [exact H1 | lia].
    + unfold ret; cbn [fst snd]; split; [exists None; split; [reflexivity | lia] | lia].
Qed.

(** C5 (counterexample): the AI branch name is persisted 9.7 s after the
    start, within 10 s of the start of the wait, but after its last poll
    (the wait itself lasts 10.02 s): the sandbox is created without it, and
    the sandbox's fallback name then overwrites it in the row. *)
Lemma late_branch_name_overwritten :
  now (snd (waitForBranchName quick_agent 10000 (initial_world []))) = 10020 /\
  let w := run_task quick_agent "T" [1; 2] "" 60 false None None late_branch_name in
  calls w = [CallCreateSandbox None; CallExecuteAgent [1; 2]; CallShutdownSandbox] /\
  branchName (store w) = Some "fallback"%string.
Proof. vm_compute; split; [reflexivity | split; reflexivity]. Qed.

End OrchestratorFacts.

(** ** The branch-name wait inside [processTask] *)

Module BranchWaitFacts.
Import Trigger Orchestrator OrchestratorFacts BranchWait Scenarios.

Lemma try_catch_bind_Ok : forall A B (p : M A) (k : A -> M B) h w a w',
  p w = (Ok a, w') -> try_catch (bind p k) h w = try_catch (k a) h w'.
Proof. intros; unfold try_catch, bind; rewrite H; reflexivity. Qed.

Section Keeps.

Lemma keeps_ret : forall A (a : A), KeepsName (ret a).
Proof. intros A a w Hq; split; [exact Hq | reflexivity]. Qed.
Lemma keeps_throw : forall A e, KeepsName (@throw A e).
Proof. intros A e w Hq; split; [exact Hq | reflexivity]. Qed.
Lemma keeps_get_world : KeepsName get_world.
Proof. intros w Hq; split; [exact Hq | reflexivity]. Qed.
Lemma keeps_advance : forall d, KeepsName (advance d).
Proof. intros d w Hq; cbn [advance snd]; rewrite advance_world_quiet by exact Hq; now split. Qed.
Lemma keeps_modify : forall f,
  (forall w, queue w = [] -> queue (f w) = [] /\ branchName (store (f w)) = branchName (store w)) ->
  KeepsName (modify f).
Proof. intros f Hf w Hq; exact (Hf w Hq). Qed.
Lemma keeps_bind : forall A B (m : M A) (k : A -> M B),
  KeepsName m -> (forall a, KeepsName (k a)) -> KeepsName (bind m k).
Proof.
  intros A B m k Hm Hk w Hq; unfold bind.
  destruct (Hm w Hq) as [Hq1 Hb1]; destruct (m w) as [[a|e] w1]; cbn [snd] in *.
  - destruct (Hk a w1 Hq1) as [Hq2 Hb2]; split; [exact Hq2 | congruence].
  - now split.
Qed.
Lemma keeps_try_catch : forall A (m : M A) h,
  KeepsName m -> (forall e, KeepsName (h e)) -> KeepsName (try_catch m h).
Proof.
  intros A m h Hm Hh w Hq; unfold try_catch.
  destruct (Hm w Hq) as [Hq1 Hb1]; destruct (m w) as [[a|e] w1]; cbn [snd] in *.
  - now split.
  - destruct (Hh e w1 Hq1) as [Hq2 Hb2]; split; [exact Hq2 | congruence].
Qed.

End Keeps.

Ltac keeps_tac :=
  repeat first
    [ progress unfold_pipeline
    | progress unfold updateStatus, publish
    | apply keeps_bind; [ | intros ? ]
    | apply keeps_try_catch; [ | intros ? ]
    | apply keeps_ret | apply keeps_throw | apply keeps_get_world | apply keeps_advance
    | apply keeps_modify; intros ? ?; cbn; split; [assumption | reflexivity]
    | match goal with
      | |- KeepsName (if ?b then _ else _) => destruct b
      | |- KeepsName (match ?x with _ => _ end) => destruct x
      | |- KeepsName (let _ := _ in _) => cbv zeta
      end ].

#[export] Instance calls_grow_respects : Respects calls_grow.
Proof.
  split; unfold calls_grow.
  - intros w; exists []; now rewrite app_nil_r.
  - intros w1 w2 w3 [l1 H1] [l2 H2]; exists (l1 ++ l2); now rewrite H2, H1, app_assoc.
  - intros d w; exists []; now rewrite advance_world_calls, app_nil_r.
  - intros f w; exists []; now rewrite app_nil_r.
  - intros c w _; now exists [c].
  - intros s w; exists []; now rewrite app_nil_r.
Qed.

Section NameWrite.

Variable o : oracle.
Variables (tb : Z) (b : string).
Hypothesis Hdb : forall t, db_fails o t = false.
Hypothesis Hdt : 0 <= dt o.
Hypothesis Hb : truthy b = true.

Lemma name_write_advance : forall d w, 0 <= d -> name_write tb b w ->
  name_write tb b (advance_world d w) /\ now (advance_world d w) = now w + d /\
  status (store (advance_world d w)) = status (store w) /\
  calls (advance_world d w) = calls w /\ sandbox_var (advance_world d w) = sandbox_var w.
Proof using Hdb Hdt Hb.
  intros d [t st q l c v] Hd [(Ht & Hq & Hn)|(Ht & Hq & Hn)]; cbn in Ht, Hq, Hn; subst q;
    unfold advance_world; cbn.
  - repeat split; try reflexivity; left; cbn; repeat split; [lia | exact Hn].
  - destruct (Z.leb_spec tb (t + d)); cbn.
    + repeat split; left; cbn; repeat split; lia.
    + repeat split; right; cbn; repeat split; [lia | exact Hn].
Qed.

Lemma name_write_update : forall f w, name_write tb b w ->
  (forall r, branchName (f r) = branchName r) -> name_write tb b (update_store f w).
Proof using Hdb Hdt Hb.
  intros f [t st q l c v] [H|H] Hf; [left | right]; cbn in *; rewrite Hf; exact H.
Qed.

Lemma name_write_log : forall s msg w, name_write tb b w -> name_write tb b (log_status s msg w).
Proof using Hdb Hdt Hb. intros s msg [t st q l c v] H; exact H. Qed.

Lemma name_write_call : forall cl w, name_write tb b w -> name_write tb b (record_call cl w).
Proof using Hdb Hdt Hb. intros cl [t st q l c v] H; exact H. Qed.

Lemma name_write_sandbox_var : forall s w, name_write tb b w ->
  name_write tb b (set_sandbox_var s w).
Proof using Hdb Hdt Hb. intros s [t st q l c v] H; exact H. Qed.

Lemma inv_advance : forall d w, 0 <= d -> inv tb b w ->
  inv tb b (advance_world d w) /\ now (advance_world d w) = now w + d /\
  calls (advance_world d w) = calls w.
Proof using Hdb Hdt Hb.
  intros d w Hd [Hn Hs]; destruct (name_write_advance d w Hd Hn) as (H1 & H2 & H3 & H4 & _).
  repeat split; try assumption; congruence.
Qed.

Lemma inv_progress : forall p msg w, inv tb b w ->
  exists w', updateProgress o p msg w = (Ok tt, w') /\ inv tb b w' /\ now w' = now w + dt o /\
    calls w' = calls w.
Proof using Hdb Hdt Hb.
  intros p msg w Hw; eexists; split; [reflexivity|].
  destruct (inv_advance (dt o) w Hdt Hw) as ([Hn Hs] & Ht & Hc).
  repeat split; try assumption; try (apply name_write_update; [exact Hn | reflexivity]).
Qed.

Lemma inv_log : forall msg w, inv tb b w ->
  exists w', log_line o msg w = (Ok tt, w') /\ inv tb b w' /\ now w' = now w + dt o /\
    calls w' = calls w.
Proof using Hdb Hdt Hb.
  intros msg w Hw; eexists; split; [reflexivity|]; apply inv_advance; assumption.
Qed.

Lemma inv_stopped : forall w, inv tb b w ->
  exists w', isTaskStopped o w = (Ok false, w') /\ inv tb b w' /\ now w' = now w + dt o /\
    calls w' = calls w.
Proof using Hdb Hdt Hb.
  intros w Hw; destruct (inv_advance (dt o) w Hdt Hw) as ([Hn Hs] & Ht & Hc).
  exists (advance_world (dt o) w); split; [|repeat split; assumption].
  unfold isTaskStopped, bind, advance, get_world; cbn -[advance_world].
  rewrite Hdb, Hs; reflexivity.
Qed.

Lemma inv_external : forall cl ms w, 0 <= ms -> inv tb b w ->
  exists w', external cl ms w = (Ok tt, w') /\ inv tb b w' /\ now w' = now w + ms /\
    calls w' = calls w ++ [cl].
Proof using Hdb Hdt Hb.
  intros cl ms w Hms [Hn Hs]; eexists; split; [reflexivity|].
  destruct (inv_advance ms (record_call cl w) Hms) as (H1 & H2 & H3);
    [split; [apply name_write_call; exact Hn | exact Hs]|].
  repeat split; try apply H1; assumption.
Qed.

(** The polls of [wait_loop]: the [k]-th starts at [start + k * (dt + 500)]
    and reads at [dt] later; [K] is the index of the last one. *)
Lemma wait_loop_name_write : forall maxWait start fuel k w,
  0 < maxWait -> 0 <= k -> k <= (maxWait - 1) / (dt o + 500) + 1 ->
  (0 < k -> start + dt o + (k - 1) * (dt o + 500) < tb) ->
  Z.of_nat fuel >= (maxWait - 1) / (dt o + 500) + 2 - k ->
  now w = start + k * (dt o + 500) -> inv tb b w ->
  let lastPoll := start + dt o + (maxWait - 1) / (dt o + 500) * (dt o + 500) in
  exists w', wait_loop o fuel maxWait start w =
    (Ok (if tb <=? lastPoll then Some b else None), w') /\ inv tb b w' /\ calls w' = calls w /\
    ((tb <=? lastPoll) = false -> now w' = lastPoll + 500).
Proof using Hdb Hdt Hb.
  intros maxWait start fuel; induction fuel as [|f IH];
    intros k w Hm Hk HK Hprev Hf Hnow Hw lastPoll.
  { exfalso; cbn in Hf; lia. }
  set (q := dt o + 500) in *.
  set (K := (maxWait - 1) / q) in *.
  assert (Hq : 0 < q) by (subst q; lia).
  assert (HKdef : q * K <= maxWait - 1 < q * K + q).
  { subst K; pose proof (Z.div_mod (maxWait - 1) q ltac:(lia));
      pose proof (Z.mod_pos_bound (maxWait - 1) q Hq); lia. }
  rewrite wait_loop_S.
  destruct (Z.ltb_spec (now w - start) maxWait) as [Hlt|Hge].
  - (* a poll *)
    assert (HkK : k <= K) by nia.
    destruct (inv_advance (dt o) w Hdt Hw) as ([Hn1 Hs1] & Ht1 & Hc1).
    set (w1 := advance_world (dt o) w) in *.
    assert (Hpoll : poll_branchName o w =
      (Ok (if truthy_opt (branchName (store w1)) then branchName (store w1) else None), w1)).
    { unfold poll_branchName, bind, advance, get_world; cbn -[advance_world]; fold w1.
      rewrite Hdb; destruct (truthy_opt (branchName (store w1))); reflexivity. }
    rewrite (bind_Ok _ _ _ _ _ _ _ Hpoll).
    destruct Hn1 as [(Htb & Hq1 & Hb1)|(Htb & Hq1 & Hb1)].
    + (* the name has landed: this poll returns it *)
      rewrite Hb1; cbn [truthy_opt]; rewrite Hb.
      assert (Hle : (tb <=? lastPoll) = true) by (apply Z.leb_le; subst lastPoll; nia).
      rewrite Hle; exists w1; split; [reflexivity|].
      repeat split; try assumption; [left; repeat split; assumption | discriminate].
    + (* not yet: sleep, then the next poll *)
      rewrite Hb1.
      destruct (inv_advance 500 w1 ltac:(lia) (conj (or_intror (conj Htb (conj Hq1 Hb1))) Hs1))
        as (Hw2 & Ht2 & Hc2).
      rewrite (bind_Ok _ _ (sleep 500) _ w1 tt (advance_world 500 w1) eq_refl).
      destruct (IH (k + 1) (advance_world 500 w1)) as (w' & Hr & Hw' & Hc' & Hn');
        [assumption | lia | lia | intros _; nia | lia | rewrite Ht2, Ht1, Hnow; nia
        | exact Hw2 |].
      exists w'; fold q K lastPoll in Hr, Hn'; split; [exact Hr|].
      split; [exact Hw'|]; split; [congruence | exact Hn'].
  - (* the time is up *)
    assert (Hk1 : k = K + 1) by nia.
    assert (Hgt : (tb <=? lastPoll) = false)
      by (apply Z.leb_gt; subst lastPoll; specialize (Hprev ltac:(lia));
          replace (k - 1) with K in Hprev by lia; exact Hprev).
    rewrite Hgt; exists w; split; [reflexivity|].
    repeat split; try apply Hw; intros _; rewrite Hnow; subst lastPoll; nia.
Qed.

Lemma inv_updateStatus_processing : forall msg w, name_write tb b w ->
  exists w', updateStatus o Processing msg w = (Ok tt, w') /\ inv tb b w' /\
    now w' = now w + dt o /\ calls w' = calls w.
Proof using Hdb Hdt Hb.
  intros msg w Hw; eexists; split; [reflexivity|].
  destruct (name_write_advance (dt o) w Hdt Hw) as (Hn & Ht & _ & Hc & _).
  split; [split; [apply name_write_log, name_write_update; [exact Hn | reflexivity] | reflexivity]|].
  split; assumption.
Qed.

Lemma inv_insert : forall w, inv tb b w ->
  exists w', insert_user_message o w = (Ok tt, w') /\ inv tb b w' /\ now w' = now w + dt o /\
    calls w' = calls w.
Proof using Hdb Hdt Hb.
  intros w Hw; eexists; split; [reflexivity|]; apply inv_advance; assumption.
Qed.

Lemma inv_ret : forall A (a : A) w, inv tb b w ->
  exists w', ret a w = (Ok a, w') /\ inv tb b w' /\ now w' = now w /\ calls w' = calls w.
Proof using Hdb Hdt Hb. intros A a w Hw; exists w; repeat split; try reflexivity; apply Hw. Qed.

Lemma inv_sandbox_var : forall s w, inv tb b w ->
  exists w', modify (set_sandbox_var s) w = (Ok tt, w') /\ inv tb b w' /\ now w' = now w /\
    calls w' = calls w.
Proof using Hdb Hdt Hb.
  intros s w [Hn Hs]; eexists; split; [reflexivity|].
  split; [split; [apply name_write_sandbox_var; exact Hn | exact Hs] | split; reflexivity].
Qed.

End NameWrite.

Lemma db_update_ok : forall o f w, (forall t, db_fails o t = false) ->
  db_update o f w = (Ok tt, update_store f (advance_world (dt o) w)).
Proof.
  intros o f w Hdb; unfold db_update, bind, advance, get_world; cbn -[advance_world].
  rewrite Hdb; reflexivity.
Qed.

Lemma keeps_final : forall A (m : M A) w, KeepsName m -> queue w = [] ->
  branchName (store (snd (m w))) = branchName (store w).
Proof. intros A m w Hm Hq; apply (Hm w Hq). Qed.

Lemma calls_grow_log : forall s msg w, calls_grow w (log_status s msg w).
Proof. intros; exists []; now rewrite app_nil_r. Qed.

Lemma calls_grow_call : forall c w, calls_grow w (record_call c w).
Proof. intros; now exists [c]. Qed.

Lemma wait_loop_row : forall o fuel maxWait start w b,
  fst (wait_loop o fuel maxWait start w) = Ok (Some b) ->
  truthy b = true /\ branchName (store (snd (wait_loop o fuel maxWait start w))) = Some b.
Proof.
  intros o fuel maxWait start; induction fuel as [|f IH]; intros w b H; [discriminate|].
  revert H; rewrite wait_loop_S; destruct (now w - start <? maxWait); [|discriminate].
  unfold poll_branchName, bind, advance, get_world, ret; cbn -[advance_world wait_loop].
  set (w1 := advance_world (dt o) w).
  destruct (db_fails o (now w1)); [apply IH|].
  destruct (truthy_opt (branchName (store w1))) eqn:E; [|apply IH].
  destruct (branchName (store w1)) as [c|] eqn:Eb; [|apply IH].
  cbn; intros Hc; injection Hc as <-; split; [exact E | exact Eb].
Qed.

Ltac pstep o tb b Hdb Hdt Hb :=
  lazymatch goal with
  | |- context [try_catch (bind ?m ?k) ?h ?w] =>
      lazymatch goal with Hi : inv tb b w |- _ =>
      let w' := fresh "w" in let Hr := fresh "Hr" in let Hi' := fresh "Hi" in
      let Ht := fresh "Ht" in let Hc := fresh "Hc" in
      lazymatch m with
      | updateProgress _ ?p ?msg =>
          destruct (inv_progress o tb b Hdb Hdt Hb p msg w Hi) as (w' & Hr & Hi' & Ht & Hc)
      | log_line _ ?msg =>
          destruct (inv_log o tb b Hdb Hdt Hb msg w Hi) as (w' & Hr & Hi' & Ht & Hc)
      | insert_user_message _ =>
          destruct (inv_insert o tb b Hdb Hdt Hb w Hi) as (w' & Hr & Hi' & Ht & Hc)
      | isTaskStopped _ =>
          destruct (inv_stopped o tb b Hdb Hdt Hb w Hi) as (w' & Hr & Hi' & Ht & Hc)
      | ret ?a =>
          destruct (inv_ret o tb b Hdb Hdt Hb _ a w Hi) as (w' & Hr & Hi' & Ht & Hc)
      | external ?cl ?ms =>
          destruct (inv_external o tb b Hdb Hdt Hb cl ms w ltac:(assumption) Hi)
            as (w' & Hr & Hi' & Ht & Hc)
      | modify (set_sandbox_var ?sv) =>
          destruct (inv_sandbox_var o tb b Hdb Hdt Hb sv w Hi) as (w' & Hr & Hi' & Ht & Hc)
      end;
      rewrite (try_catch_bind_Ok _ _ _ _ _ _ _ _ Hr); cbv beta iota; clear Hr
      end
  end.

Ltac calls_done :=
  match goal with
  | |- In ?c (calls (snd (try_catch ?m ?h ?wc))) =>
      let HS := fresh "HS" in let l := fresh "l" in let Hl := fresh "Hl" in
      assert (HS : Stable calls_grow (try_catch m h))
        by (repeat first
              [ apply stable_updateStatus; apply calls_grow_log
              | apply stable_publish; apply calls_grow_call
              | progress unfold processTask_catch
              | stable_step
              | progress unfold_pipeline ]);
      destruct (HS wc) as [l Hl]; rewrite Hl; apply in_or_app; left;
      match goal with Hc : calls wc = _ ++ [_] |- _ => rewrite Hc end;
      apply in_or_app; right; now left
  end.

(** C5 (amended): [waitForBranchName] returns either a non-empty branch name
    that the row holds when it returns, or [null] once at least
    [maxWaitMs] have passed, and it returns within [maxWaitMs] plus one read
    and one 500 ms sleep. In [processTask], when the only concurrent write is
    the AI branch name [b] persisted at time [tb], and the store does not
    fail: the sandbox is created with [b] when [tb] is at most the time of
    the last read of the wait, and without a name otherwise; and a name
    persisted after that last read but before the wait ends is overwritten
    in the row by the branch name the sandbox creation returns. *)
Theorem waitForBranchName_polls :
  (forall o maxWaitMs w,
     0 <= dt o -> 0 <= maxWaitMs ->
     let res := waitForBranchName o maxWaitMs w in
     (exists v, fst res = Ok v /\
        match v with
        | Some b => truthy b = true /\ branchName (store (snd res)) = Some b
        | None => maxWaitMs <= now (snd res) - now w
        end) /\
     now (snd res) - now w <= maxWaitMs + dt o + 500) /\
  (forall o taskId prompt repoUrl keepAlive githubToken userId w tb b,
     (forall t, db_fails o t = false) ->
     0 <= dt o -> 0 <= port_ms o -> 0 <= sandbox_ms o ->
     queue w = [(tb, BranchNameWrite b)] -> now w < tb -> truthy b = true ->
     truthy_opt (branchName (store w)) = false ->
     let lastPoll := now w + 7 * dt o + 9999 / (dt o + 500) * (dt o + 500) in
     let w' := snd (processTask o taskId prompt repoUrl keepAlive githubToken userId w) in
     In (CallCreateSandbox (if tb <=? lastPoll then Some b else None)) (calls w') /\
     (forall r f, lastPoll < tb <= lastPoll + 500 ->
        sandbox_out o = Done r -> sb_success r = true -> sb_branchName r = Some f ->
        branchName (store w') = Some f)).
Proof.
  split.
  { intros o maxWaitMs w Hdt Hmw res; subst res.
    unfold waitForBranchName; rewrite (bind_Ok _ _ get_world _ w w w eq_refl).
    destruct (wait_loop_spec o (S (Z.to_nat maxWaitMs)) maxWaitMs (now w) w) as [H1 H2];
      [assumption | lia | rewrite Nat2Z.inj_succ, Z2Nat.id by assumption; lia |].
    rewrite Z.sub_diag, Z.max_r in H2 by lia.
    split; [|exact H2].
    destruct H1 as ([b|] & Hv & Hb); exists (Some b) || exists None; split; try assumption.
    apply wait_loop_row; exact Hv. }
  intros o taskId prompt repoUrl keepAlive tok uid w tb b Hdb Hdt Hport Hsbms Hq Htb Hb Hn
    lastPoll w'; subst w'.
  unfold processTask; rewrite (bind_Ok _ _ (modify (set_sandbox_var None)) _ w tt _ eq_refl).
  assert (Hw0 : name_write tb b (set_sandbox_var None w)) by (right; repeat split; assumption).
  unfold processTask_body, stop_checkpoint.
  destruct (inv_updateStatus_processing o tb b Hdb Hdt Hb "Task created, preparing to start..." _ Hw0)
    as (w1 & Hr1 & Hi1 & Ht1 & Hc1).
  rewrite (try_catch_bind_Ok _ _ _ _ _ _ _ _ Hr1); cbv beta iota; clear Hr1.
  destruct (inv_progress o tb b Hdb Hdt Hb 10 "Initializing task execution..." w1 Hi1) as (w2 & Hr & Hi2 & Ht2 & Hc2).
  rewrite (try_catch_bind_Ok _ _ _ _ _ _ _ _ Hr); cbv beta iota; clear Hr.
  do 4 pstep o tb b Hdb Hdt Hb.
  assert (HK0 : 0 <= 9999 / (dt o + 500)) by (apply Z.div_pos; lia).
  assert (HK19 : 9999 / (dt o + 500) <= 19)
    by (apply Z.le_trans with (9999 / 500); [apply Z.div_le_compat_l; lia | vm_compute; discriminate]).
  lazymatch goal with
  | |- context [try_catch (bind (waitForBranchName o 10000) _) _ ?x] =>
      assert (Hnow6 : now x = now w + 6 * dt o) by (cbn [set_sandbox_var now] in Ht1; lia);
      destruct (wait_loop_name_write o tb b Hdb Hdt Hb 10000 (now x) (S (Z.to_nat 10000)) 0 x)
        as (w7 & Hr7 & Hi7 & Hc7 & Hn7);
        change (10000 - 1) with 9999;
        [lia | lia | lia | lia | rewrite Nat2Z.inj_succ, Z2Nat.id by lia; lia | lia
        | assumption |];
      change (10000 - 1) with 9999 in Hr7, Hn7;
      replace (now x + dt o + 9999 / (dt o + 500) * (dt o + 500)) with lastPoll in Hr7, Hn7
        by (unfold lastPoll; lia);
      assert (Hw7 : waitForBranchName o 10000 x = (Ok (if tb <=? lastPoll then Some b else None), w7))
        by (unfold waitForBranchName; rewrite (bind_Ok _ _ get_world _ x x x eq_refl); exact Hr7);
      rewrite (try_catch_bind_Ok _ _ _ _ _ _ _ _ Hw7); cbv beta iota; clear Hr7 Hw7
  end.
  destruct (tb <=? lastPoll) eqn:Etb; [cbn [truthy_opt]; rewrite Hb|]; cbv iota.
  all: do 3 pstep o tb b Hdb Hdt Hb.
  all: destruct (truthy repoUrl); cbv iota; pstep o tb b Hdb Hdt Hb.
  all: pstep o tb b Hdb Hdt Hb.
  all: split; [calls_done|].
  all: intros r f Hwin Hsb Hs Hf.
  1,2: apply Z.leb_le in Etb; lia.
  all: rewrite Hsb; unfold from_ext.
  all: pstep o tb b Hdb Hdt Hb.
  all: rewrite Hs; cbn [negb]; cbv iota.
  all: do 2 pstep o tb b Hdb Hdt Hb.
  all: try specialize (Hn7 Etb).
  all: lazymatch goal with
       | Hi : inv _ _ ?wx |- context [try_catch (bind (db_update _ ?g) ?k) ?h ?wx] =>
           assert (Hqx : queue wx = []);
           [ destruct Hi as [[(Hle & Hq' & _) | (Hlt & _ & _)] _]; [exact Hq' | exfalso; lia] | ];
           rewrite (try_catch_bind_Ok _ _ _ _ _ _ _ _ (db_update_ok _ g wx Hdb)); cbv beta;
           rewrite keeps_final;
           [ | unfold processTask_catch; keeps_tac
             | cbn [update_store queue]; rewrite advance_world_quiet by exact Hqx; reflexivity ]
       end.
  all: cbn [update_store store sandbox_update_data branchName truthy_opt]; rewrite Hf; reflexivity.
Qed.


Lemma waitForBranchName_polls_witness :
  (0 <= dt quick_agent /\ 0 <= 10000 /\
   now (snd (waitForBranchName quick_agent 10000 (initial_world []))) - now (initial_world [])
     <= 10000 + dt quick_agent + 500) /\
  In (CallCreateSandbox (Some "ai-branch"%string))
    (calls (snd (processTask quick_agent "T"%string [1; 2] ""%string false None None
                   (initial_world [(2000, BranchNameWrite "ai-branch"%string)])))) /\
  branchName (store (snd (processTask quick_agent "T"%string [1; 2] ""%string false None None
                            late_branch_name))) = Some "fallback"%string.
Proof.
  split; [|split].
  - split; [vm_compute; discriminate|]; split; [vm_compute; discriminate|].
    refine (proj2 (proj1 waitForBranchName_polls quick_agent 10000 (initial_world []) _ _));
      vm_compute; discriminate.
  - refine (proj1 (proj2 waitForBranchName_polls quick_agent "T"%string [1; 2] ""%string false None None
                     (initial_world [(2000, BranchNameWrite "ai-branch"%string)]) 2000 "ai-branch"%string
                     (fun _ => eq_refl) _ _ _ eq_refl _ eq_refl eq_refl));
      vm_compute; try reflexivity; discriminate.
  - refine (proj2 (proj2 waitForBranchName_polls quick_agent "T"%string [1; 2] ""%string false None None
                     late_branch_name 9700 "ai-branch"%string
                     (fun _ => eq_refl) _ _ _ eq_refl _ eq_refl eq_refl) sandbox_ok "fallback"%string _
                     eq_refl eq_refl eq_refl);
      first [ split; [vm_compute; reflexivity | vm_compute; discriminate]
            | vm_compute; try reflexivity; discriminate ].
Defined.

End BranchWaitFacts.

(** ** Encryption of MCP secrets *)

Module CryptoFacts.
Import Crypto CryptoScenarios.

Ltac zbranch :=
  repeat (match goal with
          | |- context [?a <? ?b] => destruct (Z.ltb_spec a b)
          | |- context [?a <=? ?b] => destruct (Z.leb_spec a b)
          | |- context [?a =? ?b] => destruct (Z.eqb_spec a b)
          end; try (exfalso; lia);
          cbn beta iota delta [andb]).

Lemma decode_1 : forall b0 r, 0 <= b0 < 128 -> utf8_decode (b0 :: r) = b0 :: utf8_decode r.
Proof. intros b0 r H; cbn [utf8_decode]; unfold is_cont, second_ok3, second_ok4; zbranch; reflexivity. Qed.

Lemma decode_2 : forall b0 b1 r, 194 <= b0 <= 223 -> 128 <= b1 <= 191 ->
  utf8_decode (b0 :: b1 :: r) = ((b0 - 192) * 64 + (b1 - 128)) :: utf8_decode r.
Proof. intros b0 b1 r H0 H1; cbn [utf8_decode]; unfold is_cont, second_ok3, second_ok4; zbranch; reflexivity. Qed.

Lemma decode_3 : forall b0 b1 b2 r, 224 <= b0 <= 239 -> second_ok3 b0 b1 = true ->
  128 <= b2 <= 191 ->
  utf8_decode (b0 :: b1 :: b2 :: r) =
  ((b0 - 224) * 4096 + (b1 - 128) * 64 + (b2 - 128)) :: utf8_decode r.
Proof.
  intros b0 b1 b2 r H0 H1 H2; cbn [utf8_decode]; rewrite H1; unfold is_cont, second_ok3, second_ok4; zbranch; reflexivity.
Qed.

Lemma decode_4 : forall b0 b1 b2 b3 r, 240 <= b0 <= 244 -> second_ok4 b0 b1 = true ->
  128 <= b2 <= 191 -> 128 <= b3 <= 191 ->
  utf8_decode (b0 :: b1 :: b2 :: b3 :: r) =
  utf16_units ((b0 - 240) * 262144 + (b1 - 128) * 4096 + (b2 - 128) * 64 + (b3 - 128))
    ++ utf8_decode r.
Proof.
  intros b0 b1 b2 b3 r H0 H1 H2 H3; cbn [utf8_decode]; rewrite H1; unfold is_cont, second_ok3, second_ok4; zbranch; reflexivity.
Qed.

Lemma is_byte_iff : forall b, is_byte b = true <-> 0 <= b <= 255.
Proof. intros b; unfold is_byte; rewrite andb_true_iff, !Z.leb_le; reflexivity. Qed.

Lemma decode_encode_scalar : forall cp r,
  0 <= cp < 55296 \/ 57344 <= cp < 65536 ->
  utf8_decode (encode_scalar cp ++ r) = cp :: utf8_decode r.
Proof.
  intros cp r Hcp; unfold encode_scalar.
  destruct (Z.ltb_spec cp 128); [cbn [app]; apply decode_1; lia|].
  destruct (Z.ltb_spec cp 2048).
  - cbn [app]; rewrite decode_2 by (Z.div_mod_to_equations; lia).
    f_equal; Z.div_mod_to_equations; lia.
  - destruct (Z.ltb_spec cp 65536); [|lia].
    cbn [app]; rewrite decode_3.
    + f_equal; Z.div_mod_to_equations; lia.
    + Z.div_mod_to_equations; lia.
    + unfold second_ok3, is_cont; Z.div_mod_to_equations; zbranch; reflexivity.
    + Z.div_mod_to_equations; lia.
Qed.

Lemma div_chain : forall cp, cp / 4096 = cp / 64 / 64 /\ cp / 262144 = cp / 64 / 64 / 64.
Proof. intros cp; rewrite !Z.div_div by lia; split; reflexivity. Qed.

Lemma decode_encode_pair : forall c d r,
  55296 <= c <= 56319 -> 56320 <= d <= 57343 ->
  utf8_decode (encode_scalar (65536 + (c - 55296) * 1024 + (d - 56320)) ++ r) =
  c :: d :: utf8_decode r.
Proof.
  intros c d r Hc Hd.
  set (cp := 65536 + (c - 55296) * 1024 + (d - 56320)).
  assert (Hcp : 65536 <= cp < 1114112) by (subst cp; lia).
  assert (Hdef : cp = 65536 + (c - 55296) * 1024 + (d - 56320)) by reflexivity.
  clearbody cp.
  unfold encode_scalar; rewrite (proj1 (div_chain cp)), (proj2 (div_chain cp)).
  destruct (Z.ltb_spec cp 128); [lia|].
  destruct (Z.ltb_spec cp 2048); [lia|].
  destruct (Z.ltb_spec cp 65536); [lia|].
  cbn [app]; rewrite decode_4.
  - replace ((240 + cp / 64 / 64 / 64 - 240) * 262144 + (128 + (cp / 64 / 64) mod 64 - 128) * 4096 +
             (128 + (cp / 64) mod 64 - 128) * 64 + (128 + cp mod 64 - 128)) with cp
      by (Z.div_mod_to_equations; lia).
    unfold utf16_units; destruct (Z.ltb_spec cp 65536); [lia|].
    cbn [app]; f_equal; [|f_equal]; Z.div_mod_to_equations; lia.
  - Z.div_mod_to_equations; lia.
  - unfold second_ok4, is_cont; Z.div_mod_to_equations; zbranch; reflexivity.
  - Z.div_mod_to_equations; lia.
  - Z.div_mod_to_equations; lia.
Qed.

Lemma utf8_roundtrip : forall s, well_formed_utf16 s = true -> utf8_decode (utf8_encode s) = s.
Proof.
  intros s; remember (List.length s) as n eqn:Hn; revert s Hn.
  induction n as [n IH] using lt_wf_ind; intros s Hn Hwf.
  destruct s as [|c r]; [reflexivity|].
  cbn [well_formed_utf16] in Hwf; apply andb_true_iff in Hwf as [Hc Hwf].
  unfold is_code_unit in Hc; apply andb_true_iff in Hc as [Hc0 Hc1];
    apply Z.leb_le in Hc0; apply Z.leb_le in Hc1.
  cbn [utf8_encode]; destruct (is_high_surrogate c) eqn:Eh.
  - destruct r as [|d r']; [discriminate|].
    apply andb_true_iff in Hwf as [Hd Hwf]; rewrite Hd.
    unfold is_high_surrogate in Eh; unfold is_low_surrogate in Hd.
    apply andb_true_iff in Eh as [Eh0 Eh1]; apply andb_true_iff in Hd as [Hd0 Hd1].
    apply Z.leb_le in Eh0, Eh1, Hd0, Hd1.
    rewrite decode_encode_pair by lia.
    rewrite (IH (List.length r')); [reflexivity | simpl in Hn; lia | reflexivity | exact Hwf].
  - apply andb_true_iff in Hwf as [Hl Hwf]; apply negb_true_iff in Hl; rewrite Hl.
    rewrite decode_encode_scalar.
    + rewrite (IH (List.length r)); [reflexivity | simpl in Hn; lia | reflexivity | exact Hwf].
    + unfold is_high_surrogate, is_low_surrogate in *.
      destruct (Z.leb_spec 55296 c), (Z.leb_spec c 56319), (Z.leb_spec 56320 c),
        (Z.leb_spec c 57343); simpl in *; try discriminate; lia.
Qed.

Lemma encode_scalar_bytes : forall cp, 0 <= cp < 1114112 ->
  Forall byte_ok (encode_scalar cp).
Proof.
  intros cp Hcp; unfold encode_scalar, byte_ok.
  destruct (Z.ltb_spec cp 128); [repeat constructor; apply is_byte_iff; lia|].
  destruct (Z.ltb_spec cp 2048);
    [repeat constructor; apply is_byte_iff; Z.div_mod_to_equations; lia|].
  destruct (Z.ltb_spec cp 65536);
    repeat constructor; apply is_byte_iff; Z.div_mod_to_equations; lia.
Qed.

Lemma replacement_bytes_ok : Forall byte_ok replacement_bytes.
Proof. repeat constructor. Qed.

Lemma utf8_encode_bytes : forall s, Forall (fun c => is_code_unit c = true) s ->
  Forall byte_ok (utf8_encode s).
Proof.
  intros s; remember (List.length s) as n eqn:Hn; revert s Hn.
  induction n as [n IH] using lt_wf_ind; intros s Hn Hs.
  destruct s as [|c r]; [constructor|].
  inversion Hs as [|? ? Hc Hr]; subst.
  unfold is_code_unit in Hc; apply andb_true_iff in Hc as [Hc0 Hc1];
    apply Z.leb_le in Hc0; apply Z.leb_le in Hc1.
  assert (IHr : Forall byte_ok (utf8_encode r))
    by (apply (IH (List.length r)); [simpl; lia | reflexivity | exact Hr]).
  cbn [utf8_encode]; destruct (is_high_surrogate c) eqn:Eh.
  - destruct r as [|d r']; [exact replacement_bytes_ok|].
    inversion Hr as [|? ? Hd Hr']; subst.
    destruct (is_low_surrogate d) eqn:El; apply Forall_app; split;
      [| apply (IH (List.length r')); [simpl; lia | reflexivity | exact Hr']
       | exact replacement_bytes_ok | exact IHr].
    apply encode_scalar_bytes.
    unfold is_high_surrogate, is_low_surrogate in *.
    apply andb_true_iff in Eh as [Eh0 Eh1]; apply andb_true_iff in El as [El0 El1].
    apply Z.leb_le in Eh0, Eh1, El0, El1; lia.
  - destruct (is_low_surrogate c); apply Forall_app; split;
      [exact replacement_bytes_ok | exact IHr | | exact IHr].
    apply encode_scalar_bytes; lia.
Qed.

Lemma hex_value_digit : forall n, 0 <= n < 16 -> hex_value (hex_digit n) = Some n.
Proof.
  intros n Hn; unfold hex_value, hex_digit.
  destruct (Z.ltb_spec n 10); zbranch; f_equal; lia.
Qed.

Lemma hex_roundtrip : forall b, Forall byte_ok b -> hex_decode (hex_encode b) = b.
Proof.
  induction 1 as [|x b Hx Hb IH]; [reflexivity|].
  unfold byte_ok in Hx; rewrite is_byte_iff in Hx.
  cbn [hex_encode hex_decode].
  rewrite !hex_value_digit by (Z.div_mod_to_equations; lia).
  rewrite IH; f_equal; Z.div_mod_to_equations; lia.
Qed.

Lemma hex_encode_no_colon : forall b c, Forall byte_ok b -> In c (hex_encode b) -> c <> colon.
Proof.
  induction 1 as [|x b Hx Hb IH]; intros Hc; [destruct Hc|].
  unfold byte_ok in Hx; rewrite is_byte_iff in Hx.
  assert (Hd : forall n, 0 <= n < 16 -> hex_digit n <> colon)
    by (intros n Hn; unfold hex_digit, colon; destruct (Z.ltb_spec n 10); lia).
  destruct Hc as [<-|[<-|Hc]]; [apply Hd | apply Hd | apply IH; exact Hc];
    Z.div_mod_to_equations; lia.
Qed.

Lemma split_colon_free : forall h, (forall c, In c h -> c <> colon) ->
  split_colon h = [h] /\ forall r, split_colon (h ++ colon :: r) = h :: split_colon r.
Proof.
  induction h as [|c h IH]; intros Hh.
  - split; [reflexivity|]; intros r; cbn; reflexivity.
  - destruct IH as [IH1 IH2]; [intros x Hx; apply Hh; now right|].
    assert (Hc : (c =? colon) = false) by (apply Z.eqb_neq; apply Hh; now left).
    split; [|intros r]; cbn [split_colon app]; rewrite Hc; [rewrite IH1 | rewrite IH2]; reflexivity.
Qed.

Lemma getEncryptionKey_length : forall env key,
  getEncryptionKey env = Returns (Some key) -> List.length key = 32%nat.
Proof.
  intros [[|x k]|] key H; simpl in H; try discriminate.
  match type of H with context [Nat.eqb ?a ?b] => destruct (Nat.eqb a b) eqn:E end;
    simpl in H; [|discriminate].
  injection H as <-; now apply Nat.eqb_eq.
Qed.

Section RoundTrip.

Variable gcm_encrypt : list Z -> list Z -> list Z -> list Z * list Z.
Variable gcm_decrypt : list Z -> list Z -> list Z -> list Z -> option (list Z).
Variable cbc_decrypt : list Z -> list Z -> list Z -> option (list Z).

(** AES-256-GCM decrypts what it encrypted, for a 32-byte key and a 12-byte
    iv, and its ciphertext and tag are bytes. *)
Hypothesis gcm_correct : forall key iv p,
  List.length key = 32%nat -> List.length iv = 12%nat -> Forall byte_ok p ->
  gcm_decrypt key iv (fst (gcm_encrypt key iv p)) (snd (gcm_encrypt key iv p)) = Some p.
Hypothesis gcm_bytes : forall key iv p, Forall byte_ok p ->
  Forall byte_ok (fst (gcm_encrypt key iv p)) /\ Forall byte_ok (snd (gcm_encrypt key iv p)).

Lemma encrypt_decrypt_utf8 : forall env key iv s,
  getEncryptionKey env = Returns (Some key) ->
  List.length iv = 12%nat -> Forall byte_ok iv ->
  s <> [] -> Forall (fun c => is_code_unit c = true) s ->
  exists t, encrypt gcm_encrypt env iv s = Returns t /\
    decrypt gcm_decrypt cbc_decrypt env t = Returns (Some (utf8_decode (utf8_encode s))).
Proof.
  intros env key iv s Hkey Hiv Hivb Hne Hs.
  pose proof (getEncryptionKey_length env key Hkey) as Hlen.
  pose proof (utf8_encode_bytes s Hs) as Hp.
  destruct (gcm_bytes key iv (utf8_encode s) Hp) as [He Ht].
  pose proof (gcm_correct key iv (utf8_encode s) Hlen Hiv Hp) as Hdec.
  destruct (gcm_encrypt key iv (utf8_encode s)) as [enc tag] eqn:Ee; simpl in He, Ht, Hdec.
  assert (Henc : encrypt gcm_encrypt env iv s =
                 Returns (hex_encode iv ++ [colon] ++ hex_encode enc ++ [colon] ++ hex_encode tag)).
  { destruct s as [|c s']; [contradiction|]; unfold encrypt; rewrite Hkey, Ee; reflexivity. }
  eexists; split; [exact Henc|].
  destruct (split_colon_free (hex_encode iv) (fun c => hex_encode_no_colon iv c Hivb))
    as [_ S1].
  destruct (split_colon_free (hex_encode enc) (fun c => hex_encode_no_colon enc c He))
    as [_ S2].
  destruct (split_colon_free (hex_encode tag) (fun c => hex_encode_no_colon tag c Ht))
    as [S3 _].
  assert (Hsplit : split_colon (hex_encode iv ++ [colon] ++ hex_encode enc ++ [colon] ++
                                hex_encode tag) =
                   [hex_encode iv; hex_encode enc; hex_encode tag])
    by (simpl app; rewrite S1, S2, S3; reflexivity).
  assert (Hcolon : existsb (fun c => c =? colon)
                     (hex_encode iv ++ [colon] ++ hex_encode enc ++ [colon] ++ hex_encode tag)
                   = true)
    by (rewrite existsb_app; apply orb_true_iff; right; reflexivity).
  revert Hsplit Hcolon.
  destruct (hex_encode iv ++ [colon] ++ hex_encode enc ++ [colon] ++ hex_encode tag)
    as [|x t'] eqn:Et; [intros _ Hc; discriminate|].
  intros Hsplit Hcolon; unfold decrypt; rewrite Hkey, Hcolon, Hsplit; simpl negb; cbv iota.
  rewrite !hex_roundtrip by assumption; rewrite Hdec; reflexivity.
Qed.

Lemma well_formed_code_units : forall s, well_formed_utf16 s = true ->
  Forall (fun c => is_code_unit c = true) s.
Proof.
  intros s; remember (List.length s) as n eqn:Hn; revert s Hn.
  induction n as [n IH] using lt_wf_ind; intros s Hn Hwf.
  destruct s as [|c r]; [constructor|].
  cbn [well_formed_utf16] in Hwf; apply andb_true_iff in Hwf as [Hc Hwf].
  constructor; [exact Hc|].
  destruct (is_high_surrogate c).
  - destruct r as [|d r']; [discriminate|].
    apply andb_true_iff in Hwf as [Hd Hwf].
    assert (Hr' := IH (List.length r') ltac:(simpl in Hn; lia) r' eq_refl Hwf).
    constructor; [|exact Hr'].
    unfold is_low_surrogate, is_code_unit in *.
    apply andb_true_iff in Hd as [Hd0 Hd1]; apply Z.leb_le in Hd0, Hd1.
    apply andb_true_iff; split; apply Z.leb_le; lia.
  - apply andb_true_iff in Hwf as [_ Hwf].
    exact (IH (List.length r) ltac:(simpl in Hn; lia) r eq_refl Hwf).
Qed.

(** A lone surrogate is not restored: it is encrypted as the UTF-8 of
    U+FFFD, and decrypts to U+FFFD. *)
Lemma lone_surrogate_replaced : forall env key iv,
  getEncryptionKey env = Returns (Some key) ->
  List.length iv = 12%nat -> Forall byte_ok iv ->
  exists t, encrypt gcm_encrypt env iv [55296] = Returns t /\
    decrypt gcm_decrypt cbc_decrypt env t = Returns (Some [replacement_char]).
Proof.
  intros env key iv Hkey Hiv Hivb.
  apply (encrypt_decrypt_utf8 env key iv [55296] Hkey Hiv Hivb); [discriminate|].
  repeat constructor.
Qed.

(** C9 (amended): with a valid key, [decrypt (encrypt s)] is [s] for every
    non-empty string [s] that is well-formed UTF-16 (every surrogate code
    unit paired); a lone surrogate comes back as U+FFFD. *)
Theorem encrypt_decrypt_roundtrip : forall env key iv s,
  getEncryptionKey env = Returns (Some key) ->
  List.length iv = 12%nat -> Forall byte_ok iv ->
  s <> [] -> well_formed_utf16 s = true ->
  exists t, encrypt gcm_encrypt env iv s = Returns t /\
    decrypt gcm_decrypt cbc_decrypt env t = Returns (Some s).
Proof.
  intros env key iv s Hkey Hiv Hivb Hne Hwf.
  destruct (encrypt_decrypt_utf8 env key iv s Hkey Hiv Hivb Hne (well_formed_code_units s Hwf))
    as (t & H1 & H2).
  exists t; split; [exact H1|]; rewrite H2, utf8_roundtrip by exact Hwf; reflexivity.
Qed.

End RoundTrip.

Lemma encrypt_decrypt_roundtrip_witness :
  exists t, encrypt identity_gcm_encrypt (Some zero_key_hex) zero_iv [104; 105] = Returns t /\
    decrypt identity_gcm_decrypt failing_cbc_decrypt (Some zero_key_hex) t =
      Returns (Some [104; 105]).
Proof.
  apply (encrypt_decrypt_roundtrip identity_gcm_encrypt identity_gcm_decrypt failing_cbc_decrypt
           (fun key iv p _ _ _ => eq_refl) (fun key iv p Hp => conj Hp (Forall_nil _))
           (Some zero_key_hex) (List.repeat 0 32) zero_iv [104; 105]);
    [vm_compute; reflexivity | reflexivity | repeat constructor | discriminate | reflexivity].
Defined.

(** C9 (counterexample): the one-code-unit string [\uD800], encrypted and
    decrypted with a valid key, comes back as [\uFFFD]. *)
Lemma lone_surrogate_not_restored :
  exists t, encrypt identity_gcm_encrypt (Some zero_key_hex) zero_iv [55296] = Returns t /\
    decrypt identity_gcm_decrypt failing_cbc_decrypt (Some zero_key_hex) t =
      Returns (Some [65533]).
Proof. eexists; split; [reflexivity | vm_compute; reflexivity]. Qed.

End CryptoFacts.
